(** * Wordle helper: pattern encoding, entropy, ranking and filtering

    A shallow embedding of the C++ sources
    - [src/entropy-wasm/entropy.cpp]   (class [EntropyCalculator]),
    - [entropy-compiled.cpp]           (the same class and [calculate_entropy_c]),
    - [entropy-wasm-simple.cpp]        ([calculate_entropy], [get_pattern]),
    together with the properties of these functions.

    Conventions of the embedding.
    - A [std::string] / [const char*] is a [list ascii] (its characters,
      without the terminating NUL).
    - [int] values are [Z]; [size_t] is 32 bits wide (the emscripten
      target), and the [int] to [size_t] conversion is written out.
    - [double] arithmetic is idealised as arithmetic on [R]; the integer
      powers [pow(3, k)] of [get_pattern] are exact and are integers here.
    - An operation whose behaviour C++ leaves undefined (an index outside a
      [std::vector] or an array, a string index past the terminator) makes
      the embedded function return [None]. *)

From Stdlib Require Import ZArith Reals Lra Lia Ascii String.
From stdpp Require Import base option list strings gmap.

Local Open Scope Z_scope.

(** ** Characters and strings *)

Abbreviation word := (list ascii).

Definition char_code (c : ascii) : Z := Z.of_nat (nat_of_ascii c).

Definition NUL : ascii := ascii_of_nat 0.
Definition chr_A : ascii := "A"%char.
Definition chr_B : ascii := "B"%char.
Definition chr_G : ascii := "G"%char.
Definition chr_Y : ascii := "Y"%char.

(** [c - 'A'], the index used into the 26 counters. *)
Definition letter_index (c : ascii) : Z := char_code c - char_code chr_A.

(** The 26-letter upper-case alphabet. *)
Definition is_upper (c : ascii) : bool :=
  (65 <=? char_code c) && (char_code c <=? 90).

Definition is_lower (c : ascii) : bool :=
  (97 <=? char_code c) && (char_code c <=? 122).

(** [::toupper] in the "C" locale. *)
Definition toupper (c : ascii) : ascii :=
  if is_lower c then ascii_of_nat (nat_of_ascii c - 32) else c.

(** [std::transform(s.begin(), s.end(), s.begin(), ::toupper)]. *)
Definition upcase (s : word) : word := toupper <$> s.

(** [s[i]] on a [const std::string&] (and on a NUL-terminated buffer):
    the character at [i], the terminator at [i = size], undefined beyond. *)
Definition str_at (s : word) (i : nat) : option ascii :=
  match s !! i with
  | Some c => Some c
  | None => if decide (i = length s) then Some NUL else None
  end.

(** A string literal as a word. *)
Definition str (s : string) : word := list_ascii_of_string s.

(** ** Vectors and loops *)

(** [v[i]] for a [std::vector<int>] or a fixed-size array indexed by an
    [int]: undefined outside [0 .. size-1]. *)
Definition vec_at {A} (v : list A) (i : Z) : option A :=
  if decide (0 <= i) then v !! Z.to_nat i else None.

(** [v[i] = x]. *)
Definition vec_set {A} (v : list A) (i : Z) (x : A) : option (list A) :=
  _ ← vec_at v i; Some (<[Z.to_nat i := x]> v).

(** [v[i] += d]. *)
Definition vec_add (v : list Z) (i : Z) (d : Z) : option (list Z) :=
  x ← vec_at v i; Some (<[Z.to_nat i := x + d]> v).

(** [for (i = start; i < start + n; i++) s = body(i, s)], where a body
    that hits undefined behaviour aborts the loop. *)
Fixpoint for_loop {St} (n i : nat) (body : nat → St → option St) (s : St)
  : option St :=
  match n with
  | O => Some s
  | S n' => s' ← body i s; for_loop n' (S i) body s'
  end.

(** ** [EntropyCalculator::getPattern] *)

(** [for (char c : target) targetFreq[c - 'A']++;] *)
Fixpoint count_letters (target : word) (freq : list Z) : option (list Z) :=
  match target with
  | [] => Some freq
  | c :: rest => freq' ← vec_add freq (letter_index c) 1; count_letters rest freq'
  end.

(** The state of the two passes: [result] and [targetFreq]. *)
Definition pstate : Type := word * list Z.

(** Body of the first pass. *)
Definition green_step (guess target : word) (i : nat) (st : pstate)
  : option pstate :=
  g ← guess !! i;
  t ← str_at target i;
  if decide (g = t)
  then freq' ← vec_add st.2 (letter_index g) (-1);
       Some (<[i := chr_G]> st.1, freq')
  else Some st.

(** Body of the second pass. The [&&] is short-circuit: the counter is
    read only where [result[i] == 'B']. *)
Definition yellow_step (guess : word) (i : nat) (st : pstate)
  : option pstate :=
  g ← guess !! i;
  r ← st.1 !! i;
  if decide (r = chr_B)
  then n ← vec_at st.2 (letter_index g);
       if decide (0 < n)
       then freq' ← vec_add st.2 (letter_index g) (-1);
            Some (<[i := chr_Y]> st.1, freq')
       else Some st
  else Some st.

Definition getPattern (guess target : word) : option word :=
  let result := replicate (length guess) chr_B in
  freq ← count_letters target (replicate 26 0);
  st1 ← for_loop (length guess) 0 (green_step guess target) (result, freq);
  st2 ← for_loop (length guess) 0 (yellow_step guess) st1;
  Some st2.1.

(** ** [get_pattern] of [entropy-wasm-simple.cpp] *)

(** The state of [get_pattern]: [pattern] and [used]. *)
Definition cstate : Type := Z * list bool.

(** Body of the first pass: [pattern += 2 * pow(3, word_length - 1 - i)]. *)
Definition exact_step (guess answer : word) (word_length : Z) (i : nat)
    (st : cstate) : option cstate :=
  g ← str_at guess i;
  a ← str_at answer i;
  if decide (g = a)
  then used' ← vec_set st.2 (Z.of_nat i) true;
       Some (st.1 + 2 * 3 ^ (word_length - 1 - Z.of_nat i), used')
  else Some st.

(** The inner loop [for (j = ...; j < word_length; j++)] with its [break]:
    the first [j] with [!used[j] && g == answer[j]], if any. *)
Fixpoint find_unused (g : ascii) (answer : word) (used : list bool) (n j : nat)
  : option (option nat) :=
  match n with
  | O => Some None
  | S n' =>
      u ← vec_at used (Z.of_nat j);
      if (u : bool) then find_unused g answer used n' (S j)
      else a ← str_at answer j;
           if decide (g = a) then Some (Some j)
           else find_unused g answer used n' (S j)
  end.

(** Body of the second pass. *)
Definition present_step (guess answer : word) (word_length : Z) (i : nat)
    (st : cstate) : option cstate :=
  g ← str_at guess i;
  a ← str_at answer i;
  if decide (g = a) then Some st
  else
    found ← find_unused g answer st.2 (Z.to_nat word_length) 0;
    match found with
    | Some j =>
        used' ← vec_set st.2 (Z.of_nat j) true;
        Some (st.1 + 1 * 3 ^ (word_length - 1 - Z.of_nat i), used')
    | None => Some st
    end.

Definition get_pattern (guess answer : word) (word_length : Z) : option Z :=
  let n := Z.to_nat word_length in
  st1 ← for_loop n 0 (exact_step guess answer word_length) (0, replicate 10 false);
  st2 ← for_loop n 0 (present_step guess answer word_length) st1;
  Some st2.1.

(** The symbol string read as a base-3 integer, first position most
    significant: G is 2, Y is 1, B is 0. *)
Definition digit_of (c : ascii) : Z :=
  if decide (c = chr_G) then 2 else if decide (c = chr_Y) then 1 else 0.

Definition read_base3 (pattern : word) : Z :=
  foldl (λ acc c, 3 * acc + digit_of c) 0 pattern.

(** ** [EntropyCalculator]: state and entropy *)

Record EntropyCalculator := {
  allWords : list word;
  possibleAnswers : list word
}.

(** The default constructor: both lists empty. *)
Definition new_calculator : EntropyCalculator :=
  {| allWords := []; possibleAnswers := [] |}.

(** [setWordLists]: both lists are replaced by the upper-cased arrays. *)
Definition setWordLists (allWordsJS possibleAnswersJS : list word)
  : EntropyCalculator :=
  {| allWords := upcase <$> allWordsJS;
     possibleAnswers := upcase <$> possibleAnswersJS |}.

(** [patternCounts[pattern]++] for every answer; [operator[]] inserts a
    zero count for a pattern seen for the first time. *)
Fixpoint tally (guess : word) (answers : list word) (counts : gmap word nat)
  : option (gmap word nat) :=
  match answers with
  | [] => Some counts
  | answer :: rest =>
      pattern ← getPattern guess answer;
      tally guess rest (<[pattern := S (default 0%nat (counts !! pattern))]> counts)
  end.

Definition log2 (x : R) : R := (ln x / ln 2)%R.

(** [entropy -= probability * log2(probability)] over the entries of the
    map, in the order the map enumerates them. *)
Definition entropy_of_counts (totalAnswers : R) (entries : list (word * nat)) : R :=
  foldl (λ entropy pair,
           let probability := (INR pair.2 / totalAnswers)%R in
           (entropy - probability * log2 probability)%R)
        0%R entries.

Definition calculateEntropy (calc : EntropyCalculator) (guessWord : word)
  : option R :=
  if decide (length (possibleAnswers calc) ≤ 1)%nat then Some 0%R
  else
    let upperGuess := upcase guessWord in
    patternCounts ← tally upperGuess (possibleAnswers calc) ∅;
    Some (entropy_of_counts (INR (length (possibleAnswers calc)))
                            (map_to_list patternCounts)).

(** [calculate_entropy_c] of [entropy-compiled.cpp]. *)
Definition calculate_entropy_c (word : word) : option R :=
  calculateEntropy new_calculator word.

(** ** [calculate_entropy] of [entropy-wasm-simple.cpp] *)

(** Body of the loop: [patterns[i]] is read from the caller's array, and
    only a positive count contributes. *)
Definition entropy_step (patterns : list Z) (total_words : Z) (i : nat)
    (entropy : R) : option R :=
  count ← vec_at patterns (Z.of_nat i);
  if decide (0 < count)
  then let probability := (IZR count / IZR total_words)%R in
       Some (entropy - probability * log2 probability)%R
  else Some entropy.

Definition calculate_entropy (patterns : list Z) (pattern_count total_words : Z)
  : option R :=
  for_loop (Z.to_nat pattern_count) 0 (entropy_step patterns total_words) 0%R.

(** ** [EntropyCalculator::calculateAllEntropies] *)

Record EntropyResult := {
  res_word : word;
  res_entropy : R;
  res_bitsOfInfo : R
}.

(** [std::round]: to the nearest integer, halves away from zero. *)
Definition round_half_away (x : R) : R :=
  if Rle_dec 0 x then IZR (Int_part (x + / 2)) else (- IZR (Int_part (- x + / 2)))%R.

Definition to_result (pair : R * word) : EntropyResult :=
  {| res_word := pair.2;
     res_entropy := pair.1;
     res_bitsOfInfo := (round_half_away (pair.1 * 100) / 100)%R |}.

(** [entropyPairs.emplace_back(calculateEntropy(word), word)] for every
    word of [allWords]. *)
Fixpoint entropy_pairs (calc : EntropyCalculator) (words : list word)
  : option (list (R * word)) :=
  match words with
  | [] => Some []
  | word :: rest =>
      e ← calculateEntropy calc word;
      pairs ← entropy_pairs calc rest;
      Some ((e, word) :: pairs)
  end.

(** What [std::sort(first, last, comp)] guarantees: the range is
    rearranged, and no later element comes before an earlier one in the
    order [comp]. The order of equivalent elements is not specified. *)
Definition sorted_by {A} (comp : A → A → Prop) (l : list A) : Prop :=
  ∀ i j a b, (i < j)%nat → l !! i = Some a → l !! j = Some b → ¬ comp b a.

Definition std_sort {A} (comp : A → A → Prop) (input output : list A) : Prop :=
  output ≡ₚ input ∧ sorted_by comp output.

(** The comparator [a.first > b.first]. *)
Definition by_entropy_desc (a b : R * word) : Prop := (a.1 > b.1)%R.

(** The arrays [calculateAllEntropies] can return. *)
Inductive calculateAllEntropies (calc : EntropyCalculator)
  : list EntropyResult → Prop :=
| ranking_no_answers :
    possibleAnswers calc = [] →
    calculateAllEntropies calc []
| ranking_sorted pairs sorted :
    possibleAnswers calc ≠ [] →
    entropy_pairs calc (allWords calc) = Some pairs →
    std_sort by_entropy_desc pairs sorted →
    calculateAllEntropies calc (to_result <$> sorted).

(** ** [EntropyCalculator::filterWords] *)

(** The [int] to [size_t] conversion of [pos < word.length()] and of
    [word[pos]]. *)
Definition size_t_of_int (x : Z) : Z := x mod 2 ^ 32.

(** [word.find(c)]: the first index of [c], [None] for [npos]. *)
Fixpoint find_char (word : word) (c : ascii) : option nat :=
  match word with
  | [] => None
  | x :: rest => if decide (x = c) then Some O else S <$> find_char rest c
  end.

(** A range-for whose body clears [valid] and breaks. *)
Fixpoint all_ok {A} (check : A → option bool) (l : list A) : option bool :=
  match l with
  | [] => Some true
  | x :: rest =>
      ok ← check x;
      if (ok : bool) then all_ok check rest else Some false
  end.

(** The green loop, from index [i] for [n] more rounds. *)
Fixpoint green_loop (knownPositions : list word) (word : word) (n i : nat)
  : option bool :=
  match n with
  | O => Some true
  | S n' =>
      known ← knownPositions !! i;
      if bool_decide (known = []) then green_loop knownPositions word n' (S i)
      else
        c ← str_at word i;
        k ← str_at known 0;
        if decide (c ≠ k) then Some false
        else green_loop knownPositions word n' (S i)
  end.

(** [for (i = 0; i < knownPositions.size() && i < word.length(); i++)]. *)
Definition green_check (knownPositions : list word) (word : word) : option bool :=
  green_loop knownPositions word (length knownPositions `min` length word) 0.

(** [pos < word.length() && word[pos] == letter]. *)
Definition excluded_hit (word : word) (letter : ascii) (pos : Z) : option bool :=
  let p := size_t_of_int pos in
  if decide (p < Z.of_nat (length word))
  then c ← str_at word (Z.to_nat p); Some (bool_decide (c = letter))
  else Some false.

Definition yellow_item_ok (word : word) (yellow : ascii * list Z) : option bool :=
  match find_char word yellow.1 with
  | None => Some false
  | Some _ =>
      all_ok (λ pos, hit ← excluded_hit word yellow.1 pos; Some (negb hit)) yellow.2
  end.

Definition yellow_check (yellowLetters : list (ascii * list Z)) (word : word)
  : option bool :=
  all_ok (yellow_item_ok word) yellowLetters.

Definition gray_item_ok (word grayLetter : word) : option bool :=
  if bool_decide (grayLetter = []) then Some true
  else g ← str_at grayLetter 0; Some (bool_decide (find_char word g = None)).

Definition gray_check (grayLetters : list word) (word : word) : option bool :=
  all_ok (gray_item_ok word) grayLetters.

(** The body of the loop over [words]: the final value of [valid]. *)
Definition word_valid (knownPositions : list word)
    (yellowLetters : list (ascii * list Z)) (grayLetters : list word)
    (word : word) : option bool :=
  green ← green_check knownPositions word;
  if negb green then Some false
  else
    yellow ← yellow_check yellowLetters word;
    if negb yellow then Some false
    else gray_check grayLetters word.

Fixpoint filter_loop (valid : word → option bool) (words filtered : list word)
  : option (list word) :=
  match words with
  | [] => Some filtered
  | word :: rest =>
      ok ← valid word;
      filter_loop valid rest (if (ok : bool) then filtered ++ [word] else filtered)
  end.

(** The filtering loop over the converted vectors. *)
Definition filter_core (words knownPositions : list word)
    (yellowLetters : list (ascii * list Z)) (grayLetters : list word)
  : option (list word) :=
  filter_loop (word_valid knownPositions yellowLetters grayLetters) words [].

(** An element of [yellowLettersJS]. *)
Record YellowItem := {
  letter : word;
  excludedPositions : list Z
}.

(** [yellowItem["letter"].as<std::string>()[0]], upper-cased. *)
Definition yellow_of_item (item : YellowItem) : ascii * list Z :=
  (toupper (default NUL (str_at (letter item) 0)), excludedPositions item).

Definition filterWords (wordsJS knownPositionsJS : list word)
    (yellowLettersJS : list YellowItem) (grayLettersJS : list word)
  : option (list word) :=
  filter_core (upcase <$> wordsJS) (upcase <$> knownPositionsJS)
              (yellow_of_item <$> yellowLettersJS) (upcase <$> grayLettersJS).

(** ** Vocabulary of the statements *)

(** A word over the upper-case alphabet. *)
Definition upper_word (s : word) : bool := forallb is_upper s.

(** Number of occurrences of [c] in [s]. *)
Definition occ (c : ascii) (s : word) : nat :=
  length (filter (λ x, x = c) s).

(** Number of positions where guess and target both carry [c]. *)
Definition exact_count (guess target : word) (c : ascii) : nat :=
  length (filter (λ p, p.1 = c ∧ p.2 = c) (zip guess target)).

(** Number of positions before [i] marked Y in [r] whose guess letter is [c]. *)
Definition present_before (r guess : word) (i : nat) (c : ascii) : nat :=
  length (filter (λ p, p.1 = chr_Y ∧ p.2 = c) (zip (take i r) (take i guess))).

(** Occurrences of [c] in the target that neither an exact match nor a
    Y mark before position [i] has consumed. *)
Definition remaining (guess target r : word) (i : nat) (c : ascii) : Z :=
  Z.of_nat (occ c target) - Z.of_nat (exact_count guess target c)
  - Z.of_nat (present_before r guess i c).

(** The counters [freq] hold [f c] for every upper-case letter [c]. *)
Definition freq_repr (freq : list Z) (f : ascii → Z) : Prop :=
  length freq = 26%nat ∧
  ∀ c, is_upper c = true → vec_at freq (letter_index c) = Some (f c).

(** Number of positions of [answer] carrying [c] that [used] leaves free. *)
Definition unused_count (used : list bool) (answer : word) (c : ascii) : nat :=
  length (filter (λ p, p.1 = false ∧ p.2 = c) (zip used answer)).

(** The state of [getPattern] after [i] rounds of the first pass. *)
Definition green_inv (guess target : word) (i : nat) (st : pstate) : Prop :=
  length st.1 = length guess ∧
  (∀ j g t, guess !! j = Some g → target !! j = Some t →
     st.1 !! j = Some (if decide ((j < i)%nat ∧ g = t) then chr_G else chr_B)) ∧
  freq_repr st.2
    (λ c, Z.of_nat (occ c target)
          - Z.of_nat (exact_count (take i guess) (take i target) c)).

(** The state of [getPattern] after [i] rounds of the second pass. *)
Definition yellow_inv (guess target : word) (i : nat) (st : pstate) : Prop :=
  length st.1 = length guess ∧
  (∀ j g t, guess !! j = Some g → target !! j = Some t →
     st.1 !! j = Some (if decide (g = t) then chr_G
                       else if decide ((j < i)%nat ∧ 0 < remaining guess target st.1 j g)
                            then chr_Y else chr_B)) ∧
  freq_repr st.2 (λ c, remaining guess target st.1 i c).

(** The shape of the state of [getPattern] that keeps its indexing in range. *)
Definition shape_inv (guess : word) (st : pstate) : Prop :=
  length st.1 = length guess ∧ length st.2 = 26%nat.

(** [getPattern] and [get_pattern] after [i] rounds of their first passes. *)
Definition exact_sim (guess answer : word) (i : nat) (st : pstate) (ct : cstate)
  : Prop :=
  green_inv guess answer i st ∧
  length ct.2 = 10%nat ∧
  ct.1 = read_base3 st.1 ∧
  (∀ j, (i ≤ j < 10)%nat → ct.2 !! j = Some false) ∧
  (∀ c, Z.of_nat (occ c answer)
        - Z.of_nat (exact_count (take i guess) (take i answer) c)
        = Z.of_nat (unused_count ct.2 answer c)).

(** [getPattern] and [get_pattern] after [i] rounds of their second passes. *)
Definition present_sim (guess answer : word) (i : nat) (st : pstate) (ct : cstate)
  : Prop :=
  yellow_inv guess answer i st ∧
  length ct.2 = 10%nat ∧
  ct.1 = read_base3 st.1 ∧
  (∀ c, remaining guess answer st.1 i c = Z.of_nat (unused_count ct.2 answer c)).

(** The letter a green entry requires at position [i]: the first character
    of a non-empty string. *)
Definition green_required (knownPositions : list word) (i : nat) : option ascii :=
  known ← knownPositions !! i; head known.

(** Every green-constrained position that the word has carries the
    required letter. *)
Definition green_ok (knownPositions : list word) (word : word) : Prop :=
  ∀ i c x, green_required knownPositions i = Some c → word !! i = Some x → x = c.

(** The word has [letter] at index [pos]. *)
Definition has_letter_at (word : word) (letter : ascii) (pos : Z) : Prop :=
  0 <= pos ∧ word !! Z.to_nat pos = Some letter.

(** Every yellow letter occurs in the word, and at none of its excluded
    positions. *)
Definition yellow_ok (yellowLetters : list (ascii * list Z)) (word : word) : Prop :=
  ∀ y, y ∈ yellowLetters →
       y.1 ∈ word ∧ ∀ pos, pos ∈ y.2 → ¬ has_letter_at word y.1 pos.

(** No gray letter (the first character of a non-empty entry) occurs in
    the word. *)
Definition gray_ok (grayLetters : list word) (word : word) : Prop :=
  ∀ s g, s ∈ grayLetters → head s = Some g → g ∉ word.

(** Values of type [int]. *)
Definition int_range (x : Z) : bool := (- 2 ^ 31 <=? x) && (x <? 2 ^ 31).

Definition positions_in_range (yellowLetters : list (ascii * list Z)) : bool :=
  forallb (λ y, forallb int_range y.2) yellowLetters.

(** Words a 32-bit [std::string] can hold. *)
Definition representable_words (words : list word) : bool :=
  forallb (λ w, Z.of_nat (length w) <? 2 ^ 31) words.

(** The yellow constraints without the excluded positions that are no
    index of a word of at most [n] characters. *)
Definition prune_positions (n : nat) (yellowLetters : list (ascii * list Z))
  : list (ascii * list Z) :=
  (λ y, (y.1, filter (λ pos, 0 <= pos < Z.of_nat n) y.2)) <$> yellowLetters.

(** Words of at most [n] characters. *)
Definition words_within (n : nat) (words : list word) : bool :=
  forallb (λ w, (length w <=? n)%nat) words.

(** Number of occurrences of the pattern [p] among [ps]. *)
Definition count_of (p : word) (ps : list word) : nat :=
  length (filter (λ q, q = p) ps).

(** The counting loop of [calculateEntropy] on the patterns themselves. *)
Definition tally_patterns (counts : gmap word nat) (ps : list word)
  : gmap word nat :=
  foldl (λ m p, <[p := S (default 0%nat (m !! p))]> m) counts ps.

(** [ps] are the patterns of [guess] against [answers], in order. *)
Definition patterns_of (guess : word) (answers ps : list word) : Prop :=
  Forall2 (λ answer p, getPattern guess answer = Some p) answers ps.

(** Every answer is an upper-case word of the length of the guess. *)
Definition answers_fit (guess : word) (answers : list word) : bool :=
  forallb (λ a, upper_word a && (length guess =? length a)%nat) answers.

(** Sum of [f] over a list. *)
Definition rsum {A} (f : A → R) (l : list A) : R :=
  foldr (λ x acc, (f x + acc)%R) 0%R l.

(** The term [- p * log2 p] of a pattern seen [count] times out of [total]. *)
Definition entropy_term (total : R) (count : nat) : R :=
  (- (INR count / total * log2 (INR count / total)))%R.

(** The Shannon entropy of the distribution of the patterns [ps]: the sum
    of the terms of the distinct patterns. *)
Definition shannon (ps : list word) : R :=
  rsum (λ p, entropy_term (INR (length ps)) (count_of p ps)) (remove_dups ps).

(** Every dictionary word is alphabetic and of the length of the answers,
    which are upper-case. *)
Definition calculator_fit (calc : EntropyCalculator) : bool :=
  forallb (λ w, upper_word (upcase w)
                && answers_fit (upcase w) (possibleAnswers calc))
          (allWords calc).

(** A yellow item with its letter upper-cased by the caller. *)
Definition upcase_item (item : YellowItem) : YellowItem :=
  {| letter := upcase (letter item);
     excludedPositions := excludedPositions item |}.

(** Number of positions of the guess that carry [c] and are marked G or Y
    in [r]. *)
Definition colored_count (r guess : word) (c : ascii) : nat :=
  length (filter (λ p, p.1 ≠ chr_B ∧ p.2 = c) (zip r guess)).

(** A character of a pattern string. *)
Definition is_mark (c : ascii) : Prop := c = chr_G ∨ c = chr_Y ∨ c = chr_B.

(** What a returning first pass of [getPattern] has established after [k]
    rounds: a position not marked B carries an upper-case guess letter. *)
Definition green_run_inv (guess : word) (k : nat) (st : pstate) : Prop :=
  length st.2 = 26%nat ∧ length st.1 = length guess ∧
  ∀ j g, guess !! j = Some g → st.1 !! j = Some chr_B ∨ is_upper g = true.

(** The same for the second pass, about the positions still to visit. *)
Definition yellow_run_inv (guess : word) (k : nat) (st : pstate) : Prop :=
  length st.2 = 26%nat ∧ length st.1 = length guess ∧
  ∀ j g, (k ≤ j)%nat → guess !! j = Some g →
         st.1 !! j = Some chr_B ∨ is_upper g = true.

(** The contribution of one entry of the array of [calculate_entropy]. *)
Definition count_term (total_words : Z) (count : Z) : R :=
  if decide (0 < count)
  then (- (IZR count / IZR total_words * log2 (IZR count / IZR total_words)))%R
  else 0%R.

(** Sum of an array of counts. *)
Definition sum_counts (patterns : list Z) : Z := foldr Z.add 0 patterns.



(** A letter of either case. *)
Definition is_alpha (c : ascii) : bool := is_upper c || is_lower c.

(** Words of letters, all of length [n]. *)
Definition alpha_words (n : nat) (words : list word) : bool :=
  forallb (λ w, forallb is_alpha w && (length w =? n)%nat) words.

(** * Properties *)

(** ** Characters, counters and loops *)

Lemma char_code_inj a b : char_code a = char_code b → a = b.
Proof.
  unfold char_code. intros H. apply Nat2Z.inj in H.
  rewrite <- (ascii_nat_embedding a), <- (ascii_nat_embedding b). by rewrite H.
Qed.

Lemma letter_index_inj a b : letter_index a = letter_index b → a = b.
Proof. unfold letter_index. intros H. apply char_code_inj. lia. Qed.

Lemma upper_index_range c : is_upper c = true → 0 <= letter_index c < 26.
Proof.
  unfold is_upper, letter_index. intros H.
  apply andb_prop in H as [H1 H2].
  apply Z.leb_le in H1, H2. change (char_code chr_A) with 65. lia.
Qed.

Lemma upper_word_lookup s i c :
  upper_word s = true → s !! i = Some c → is_upper c = true.
Proof.
  unfold upper_word. revert i. induction s as [|x s IH]; intros i H Hi; [done|].
  simpl in H. apply andb_prop in H as [Hx Hs].
  destruct i as [|i]; simpl in Hi; [by simplify_eq|]. eauto.
Qed.

Lemma upper_not_NUL c : is_upper c = true → c ≠ NUL.
Proof. intros H ->. discriminate H. Qed.

Lemma freq_repr_ext freq f g :
  (∀ c, f c = g c) → freq_repr freq f → freq_repr freq g.
Proof. intros E [Hl H]. split; [done|]. intros c Hc. rewrite <- E. auto. Qed.

Lemma freq_repr_zero : freq_repr (replicate 26 0) (λ _, 0).
Proof.
  split; [done|]. intros c Hc. apply upper_index_range in Hc.
  unfold vec_at. rewrite decide_True by lia.
  apply lookup_replicate_2. lia.
Qed.

Lemma freq_repr_add freq f c d :
  freq_repr freq f → is_upper c = true →
  ∃ freq', vec_add freq (letter_index c) d = Some freq' ∧
           freq_repr freq' (λ x, if decide (x = c) then f x + d else f x).
Proof.
  intros [Hl H] Hc. unfold vec_add. rewrite (H c Hc). simpl.
  eexists; split; [done|]. split; [by rewrite length_insert|].
  intros x Hx. pose proof (upper_index_range _ Hc). pose proof (upper_index_range _ Hx).
  unfold vec_at. rewrite decide_True by lia.
  destruct (decide (x = c)) as [->|Hne].
  - apply list_lookup_insert_eq. lia.
  - rewrite list_lookup_insert_ne.
    + specialize (H x Hx). unfold vec_at in H. by rewrite decide_True in H by lia.
    + intros E. apply Hne. apply letter_index_inj. lia.
Qed.

Lemma occ_cons c x s :
  occ c (x :: s) = ((if decide (x = c) then 1 else 0) + occ c s)%nat.
Proof. unfold occ. rewrite filter_cons. by destruct (decide (x = c)). Qed.

Lemma count_letters_spec target : ∀ freq f,
  upper_word target = true → freq_repr freq f →
  ∃ freq', count_letters target freq = Some freq' ∧
           freq_repr freq' (λ x, f x + Z.of_nat (occ x target)).
Proof.
  induction target as [|c rest IH]; intros freq f Hup Hf.
  - exists freq. split; [done|]. eapply freq_repr_ext; [|done].
    intros c. unfold occ. simpl. lia.
  - simpl in Hup. apply andb_prop in Hup as [Hc Hrest].
    destruct (freq_repr_add _ _ c 1 Hf Hc) as (freq1 & E1 & H1).
    destruct (IH _ _ Hrest H1) as (freq2 & E2 & H2).
    exists freq2. simpl. rewrite E1. simpl. split; [done|].
    eapply freq_repr_ext; [|done]. intros x. simpl. rewrite occ_cons.
    destruct (decide (x = c)), (decide (c = x)); try congruence; lia.
Qed.

Lemma for_loop_inv {St} (Inv : nat → St → Prop) body n : ∀ i s,
  Inv i s →
  (∀ k s, (i ≤ k < i + n)%nat → Inv k s → ∃ s', body k s = Some s' ∧ Inv (S k) s') →
  ∃ s', for_loop n i body s = Some s' ∧ Inv (i + n)%nat s'.
Proof.
  induction n as [|n IH]; intros i s Hi Hstep.
  - exists s. rewrite Nat.add_0_r. done.
  - destruct (Hstep i s) as (s1 & E1 & H1); [lia|done|].
    destruct (IH (S i) s1 H1) as (s2 & E2 & H2).
    { intros k s' Hk. apply Hstep. lia. }
    exists s2. simpl. rewrite E1. simpl. split; [done|].
    by replace (i + S n)%nat with (S i + n)%nat by lia.
Qed.

Lemma for_loop_sim {S T} (R : nat → S → T → Prop) f g n : ∀ i s t,
  R i s t →
  (∀ k s t, (i ≤ k < i + n)%nat → R k s t →
            ∃ s' t', f k s = Some s' ∧ g k t = Some t' ∧ R (Datatypes.S k) s' t') →
  ∃ s' t', for_loop n i f s = Some s' ∧ for_loop n i g t = Some t' ∧
           R (i + n)%nat s' t'.
Proof.
  induction n as [|n IH]; intros i s t Hi Hstep.
  - exists s, t. rewrite Nat.add_0_r. done.
  - destruct (Hstep i s t) as (s1 & t1 & E1 & F1 & H1); [lia|done|].
    destruct (IH (Datatypes.S i) s1 t1 H1) as (s2 & t2 & E2 & F2 & H2).
    { intros k s' t' Hk. apply Hstep. lia. }
    exists s2, t2. simpl. rewrite E1, F1. simpl. split; [done|]. split; [done|].
    by replace (i + Datatypes.S n)%nat with (Datatypes.S i + n)%nat by lia.
Qed.

(** ** Counting over prefixes *)

Lemma count_snoc {A} (P : A → Prop) `{∀ x, Decision (P x)} (l : list A) x :
  length (filter P (l ++ [x]))
  = (length (filter P l) + (if decide (P x) then 1 else 0))%nat.
Proof.
  rewrite filter_app, length_app, filter_cons, filter_nil.
  by destruct (decide (P x)).
Qed.

Lemma count_zip_take_S {A B} (P : A * B → Prop) `{∀ x, Decision (P x)}
    (l1 : list A) (l2 : list B) k a b :
  l1 !! k = Some a → l2 !! k = Some b →
  length (filter P (zip (take (S k) l1) (take (S k) l2)))
  = (length (filter P (zip (take k l1) (take k l2)))
     + (if decide (P (a, b)) then 1 else 0))%nat.
Proof.
  intros H1 H2. rewrite (take_S_r _ _ _ H1), (take_S_r _ _ _ H2).
  apply lookup_lt_Some in H1, H2.
  rewrite zip_with_app by (rewrite !length_take; lia).
  simpl. apply count_snoc.
Qed.

Lemma exact_count_take_S guess target k g t c :
  guess !! k = Some g → target !! k = Some t →
  exact_count (take (S k) guess) (take (S k) target) c
  = (exact_count (take k guess) (take k target) c
     + (if decide (g = c ∧ t = c) then 1 else 0))%nat.
Proof.
  intros. unfold exact_count.
  by rewrite (count_zip_take_S (λ p, p.1 = c ∧ p.2 = c) _ _ _ g t).
Qed.

Lemma present_before_0 r guess c : present_before r guess 0 c = 0%nat.
Proof. done. Qed.

Lemma present_before_S r guess k m g c :
  r !! k = Some m → guess !! k = Some g →
  present_before r guess (S k) c
  = (present_before r guess k c
     + (if decide (m = chr_Y ∧ g = c) then 1 else 0))%nat.
Proof.
  intros. unfold present_before.
  by rewrite (count_zip_take_S (λ p, p.1 = chr_Y ∧ p.2 = c) _ _ _ m g).
Qed.

Lemma present_before_insert r guess j k x c :
  (j ≤ k)%nat →
  present_before (<[k:=x]> r) guess j c = present_before r guess j c.
Proof. intros. unfold present_before. by rewrite take_insert_ge. Qed.

Lemma remaining_insert guess target r j k x c :
  (j ≤ k)%nat →
  remaining guess target (<[k:=x]> r) j c = remaining guess target r j c.
Proof. intros. unfold remaining. by rewrite present_before_insert. Qed.

Lemma remaining_S guess target r k m g c :
  r !! k = Some m → guess !! k = Some g →
  remaining guess target r (S k) c
  = remaining guess target r k c - (if decide (m = chr_Y ∧ g = c) then 1 else 0).
Proof.
  intros H1 H2. unfold remaining. rewrite (present_before_S _ _ _ _ _ _ H1 H2).
  destruct (decide (m = chr_Y ∧ g = c)); lia.
Qed.

Lemma str_at_lookup s i c : s !! i = Some c → str_at s i = Some c.
Proof. unfold str_at. by intros ->. Qed.

(** ** The two passes of [getPattern] *)

Section two_pass.
Variables guess target : word.
Hypothesis same_length : length guess = length target.
Hypothesis guess_upper : upper_word guess = true.

Lemma green_step_inv k st :
  (k < length guess)%nat → green_inv guess target k st →
  ∃ st', green_step guess target k st = Some st' ∧ green_inv guess target (S k) st'.
Proof.
  intros Hk (Hlen & Hres & Hfreq). destruct st as [res freq]. cbn [fst snd] in *.
  destruct (lookup_lt_is_Some_2 guess k Hk) as [g Hg].
  destruct (lookup_lt_is_Some_2 target k) as [t Ht]; [lia|].
  pose proof (upper_word_lookup _ _ _ guess_upper Hg) as Hup.
  unfold green_step. rewrite Hg, (str_at_lookup _ _ _ Ht). simpl.
  destruct (decide (g = t)) as [->|Hne].
  - destruct (freq_repr_add _ _ t (-1) Hfreq Hup) as (freq' & E & Hf').
    rewrite E. simpl. eexists; split; [done|].
    split; [by simpl; rewrite length_insert|]. split.
    + intros j g' t' Hg' Ht'. cbn [fst snd]. destruct (decide (j = k)) as [->|Hjk].
      * simplify_eq. rewrite list_lookup_insert_eq by lia.
        by rewrite decide_True by (split; [lia|done]).
      * rewrite list_lookup_insert_ne by done. rewrite (Hres _ _ _ Hg' Ht').
        f_equal. destruct (decide (g' = t')); [|by rewrite !decide_False by tauto].
        destruct (decide (j < k)%nat).
        -- by rewrite !decide_True by (split; [lia|done]).
        -- by rewrite !decide_False by lia.
    + eapply freq_repr_ext; [|exact Hf']. intros c. simpl.
      rewrite (exact_count_take_S _ _ _ _ _ _ Hg Ht).
      destruct (decide (c = t)) as [->|Hc].
      * rewrite decide_True by done. lia.
      * rewrite decide_False by (intros [? ?]; congruence). lia.
  - eexists; split; [done|]. split; [done|]. split.
    + intros j g' t' Hg' Ht'. cbn [fst snd]. rewrite (Hres _ _ _ Hg' Ht'). f_equal.
      destruct (decide (j = k)) as [->|Hjk].
      * simplify_eq. by rewrite !decide_False by tauto.
      * destruct (decide (g' = t')); [|by rewrite !decide_False by tauto].
        destruct (decide (j < k)%nat).
        -- by rewrite !decide_True by (split; [lia|done]).
        -- by rewrite !decide_False by lia.
    + eapply freq_repr_ext; [|exact Hfreq]. intros c. simpl.
      rewrite (exact_count_take_S _ _ _ _ _ _ Hg Ht).
      rewrite decide_False by (intros [? ?]; congruence). lia.
Qed.

Lemma green_pass_done st :
  green_inv guess target (length guess) st → yellow_inv guess target 0 st.
Proof.
  intros (Hlen & Hres & Hfreq). destruct st as [res freq]. cbn [fst snd] in *.
  split; [done|]. split.
  - intros j g t Hg Ht. cbn [fst snd]. rewrite (Hres _ _ _ Hg Ht). f_equal.
    pose proof (lookup_lt_Some _ _ _ Hg).
    destruct (decide (g = t)).
    + by rewrite decide_True by (split; [lia|done]).
    + rewrite decide_False by tauto. by rewrite decide_False by lia.
  - eapply freq_repr_ext; [|exact Hfreq]. intros c. simpl.
    unfold remaining. rewrite present_before_0.
    rewrite !take_ge by lia. lia.
Qed.

Lemma yellow_inv_next k res freq freq' g t m :
  guess !! k = Some g → target !! k = Some t →
  yellow_inv guess target k (res, freq) →
  m = (if decide (g = t) then chr_G
       else if decide (0 < remaining guess target res k g) then chr_Y else chr_B) →
  freq_repr freq'
    (λ c, remaining guess target res k c
          - (if decide (m = chr_Y ∧ g = c) then 1 else 0)) →
  yellow_inv guess target (S k) (<[k:=m]> res, freq').
Proof.
  intros Hg Ht (Hlen & Hres & Hfreq) Hm Hf'. cbn [fst snd] in *.
  pose proof (lookup_lt_Some _ _ _ Hg) as Hk.
  split; [by cbn [fst]; rewrite length_insert|]. split.
  - intros j g' t' Hg' Ht'. cbn [fst snd].
    destruct (decide (j = k)) as [->|Hjk].
    + assert (g' = g) as -> by congruence. assert (t' = t) as -> by congruence.
      rewrite list_lookup_insert_eq by lia. f_equal.
      rewrite remaining_insert by lia. rewrite Hm.
      destruct (decide (g = t)); [done|].
      destruct (decide (0 < remaining guess target res k g)).
      * by rewrite decide_True by (split; [lia|done]).
      * by rewrite decide_False by tauto.
    + rewrite list_lookup_insert_ne by done. rewrite (Hres _ _ _ Hg' Ht'). f_equal.
      destruct (decide (g' = t')); [done|].
      destruct (decide (j < k)%nat).
      * rewrite remaining_insert by lia.
        destruct (decide (0 < remaining guess target res j g')).
        -- by rewrite !decide_True by (split; [lia|done]).
        -- by rewrite !decide_False by tauto.
      * by rewrite !decide_False by lia.
  - eapply freq_repr_ext; [|exact Hf']. intros c. cbn [fst snd].
    rewrite (remaining_S _ _ _ k m g); [|by apply list_lookup_insert_eq; lia|done].
    by rewrite remaining_insert by lia.
Qed.

Lemma yellow_step_inv k st :
  (k < length guess)%nat → yellow_inv guess target k st →
  ∃ st', yellow_step guess k st = Some st' ∧ yellow_inv guess target (S k) st'.
Proof.
  intros Hk Hinv. destruct st as [res freq].
  pose proof Hinv as (Hlen & Hres & Hfreq). cbn [fst snd] in *.
  destruct (lookup_lt_is_Some_2 guess k Hk) as [g Hg].
  destruct (lookup_lt_is_Some_2 target k) as [t Ht]; [lia|].
  pose proof (upper_word_lookup _ _ _ guess_upper Hg) as Hup.
  pose proof (Hres _ _ _ Hg Ht) as Hrk.
  rewrite (decide_False (P := (k < k)%nat ∧ _)) in Hrk by lia.
  unfold yellow_step. cbn [fst snd]. rewrite Hg, Hrk. simpl.
  destruct (decide (g = t)) as [->|Hne].
  - rewrite decide_False by done. eexists; split; [done|].
    rewrite <- (list_insert_id res k chr_G) by done.
    eapply yellow_inv_next; [done..| |].
    + by rewrite decide_True.
    + eapply freq_repr_ext; [|exact Hfreq]. intros c. cbn beta.
      rewrite decide_False by (by intros [? ?]). lia.
  - rewrite decide_True by done.
    destruct Hfreq as [Hfl Hfreq]. rewrite (Hfreq g Hup). simpl.
    destruct (decide (0 < remaining guess target res k g)) as [Hpos|Hnpos].
    + destruct (freq_repr_add _ _ g (-1) (conj Hfl Hfreq) Hup) as (freq' & E & Hf').
      rewrite E. simpl. eexists; split; [done|].
      eapply yellow_inv_next; [done..| |].
      * rewrite decide_False by done. by rewrite decide_True.
      * eapply freq_repr_ext; [|exact Hf']. intros c. cbn beta.
        destruct (decide (c = g)) as [->|Hc].
        -- rewrite decide_True by done. lia.
        -- rewrite decide_False by (intros [? ?]; congruence). lia.
    + eexists; split; [done|].
      rewrite <- (list_insert_id res k chr_B) by done.
      eapply yellow_inv_next; [done..| |].
      * rewrite decide_False by done. by rewrite decide_False.
      * eapply freq_repr_ext; [|exact (conj Hfl Hfreq)]. intros c. cbn beta.
        rewrite decide_False by (by intros [? ?]). lia.
Qed.

Hypothesis target_upper : upper_word target = true.

(** [getPattern] returns, and its result is the final state of the
    second pass. *)
Lemma getPattern_inv :
  ∃ r freq, getPattern guess target = Some r ∧
            yellow_inv guess target (length guess) (r, freq).
Proof.
  unfold getPattern.
  destruct (count_letters_spec target _ _ target_upper freq_repr_zero)
    as (freq0 & E0 & Hf0).
  rewrite E0. simpl.
  destruct (for_loop_inv (green_inv guess target) (green_step guess target)
              (length guess) 0 (replicate (length guess) chr_B, freq0))
    as (st1 & E1 & H1).
  { split; [by cbn [fst]; rewrite length_replicate|]. split.
    - intros j g t Hg Ht. cbn [fst]. rewrite decide_False by lia.
      apply lookup_replicate_2. by eapply lookup_lt_Some.
    - eapply freq_repr_ext; [|exact Hf0]. intros c. cbn [snd].
      unfold exact_count. simpl. lia. }
  { intros k s [_ Hk]. by apply green_step_inv. }
  rewrite E1. simpl.
  destruct (for_loop_inv (yellow_inv guess target) (yellow_step guess)
              (length guess) 0 st1) as (st2 & E2 & H2).
  { by apply green_pass_done. }
  { intros k s [_ Hk]. by apply yellow_step_inv. }
  rewrite E2. simpl. destruct st2 as [r freq]. by exists r, freq.
Qed.
End two_pass.

Lemma exact_count_le_occ guess target c :
  (exact_count guess target c ≤ occ c target)%nat.
Proof.
  unfold exact_count, occ. revert target.
  induction guess as [|g guess IH]; intros [|t target]; simpl; try lia.
  rewrite !filter_cons. specialize (IH target). simpl.
  destruct (decide (g = c ∧ t = c)) as [[_ ->]|Hn].
  - rewrite decide_True by done. simpl. lia.
  - destruct (decide (t = c)); simpl; lia.
Qed.

Lemma chr_G_ne_B : chr_G ≠ chr_B. Proof. done. Qed.
Lemma chr_Y_ne_B : chr_Y ≠ chr_B. Proof. done. Qed.
Lemma chr_G_ne_Y : chr_G ≠ chr_Y. Proof. done. Qed.

(** The marks of a final state of the second pass, position by position. *)
Lemma yellow_inv_marks guess target r freq i g t :
  yellow_inv guess target (length guess) (r, freq) →
  guess !! i = Some g → target !! i = Some t →
  (r !! i = Some chr_G ↔ g = t) ∧
  (r !! i = Some chr_Y ↔ g ≠ t ∧ 0 < remaining guess target r i g) ∧
  (r !! i = Some chr_B ↔ g ≠ t ∧ remaining guess target r i g <= 0).
Proof.
  intros (Hlen & Hres & _) Hg Ht. cbn [fst snd] in *.
  rewrite (Hres _ _ _ Hg Ht). pose proof (lookup_lt_Some _ _ _ Hg).
  pose proof chr_G_ne_B. pose proof chr_Y_ne_B. pose proof chr_G_ne_Y.
  destruct (decide (g = t)).
  { repeat split; try tauto; intros; simplify_eq; tauto. }
  destruct (decide (0 < remaining guess target r i g)).
  - rewrite decide_True by (split; [lia|done]).
    repeat split; try tauto; try lia; intros; simplify_eq; tauto.
  - rewrite decide_False by tauto.
    repeat split; try tauto; try lia; intros; simplify_eq; tauto.
Qed.

(** In a final state no letter is consumed more often than the target
    supplies it. *)
Lemma yellow_inv_supply guess target r freq c :
  length guess = length target →
  yellow_inv guess target (length guess) (r, freq) →
  ∀ i, (i ≤ length guess)%nat → 0 <= remaining guess target r i c.
Proof.
  intros Hsame Hinv. induction i as [|i IH]; intros Hi.
  - unfold remaining. rewrite present_before_0.
    pose proof (exact_count_le_occ guess target c). lia.
  - destruct (lookup_lt_is_Some_2 guess i) as [g Hg]; [lia|].
    destruct (lookup_lt_is_Some_2 target i) as [t Ht]; [lia|].
    destruct (lookup_lt_is_Some_2 r i) as [m Hm].
    { destruct Hinv as [Hlen _]. cbn [fst] in Hlen. lia. }
    rewrite (remaining_S _ _ _ _ _ _ _ Hm Hg).
    destruct (decide (m = chr_Y ∧ g = c)) as [[-> ->]|_]; [|lia].
    destruct (yellow_inv_marks _ _ _ _ _ _ _ Hinv Hg Ht) as (_ & HY & _).
    apply HY in Hm. lia.
Qed.

(** ** Base-3 reading and the [used] array *)

Lemma read_base3_acc l : ∀ acc,
  foldl (λ acc c, 3 * acc + digit_of c) acc l
  = acc * 3 ^ Z.of_nat (length l) + read_base3 l.
Proof.
  unfold read_base3. induction l as [|x l IH]; intros acc.
  - simpl. lia.
  - cbn [foldl length]. rewrite IH, (IH (3 * 0 + digit_of x)).
    rewrite Nat2Z.inj_succ, Z.pow_succ_r by lia. lia.
Qed.

Lemma read_base3_app l1 l2 :
  read_base3 (l1 ++ l2)
  = read_base3 l1 * 3 ^ Z.of_nat (length l2) + read_base3 l2.
Proof. unfold read_base3 at 1. rewrite foldl_app. apply read_base3_acc. Qed.

Lemma read_base3_cons x l :
  read_base3 (x :: l) = digit_of x * 3 ^ Z.of_nat (length l) + read_base3 l.
Proof.
  unfold read_base3 at 1. cbn [foldl]. rewrite read_base3_acc. lia.
Qed.

Lemma read_base3_insert l k x y :
  l !! k = Some x →
  read_base3 (<[k:=y]> l)
  = read_base3 l
    + (digit_of y - digit_of x) * 3 ^ (Z.of_nat (length l) - 1 - Z.of_nat k).
Proof.
  intros Hk. pose proof (lookup_lt_Some _ _ _ Hk) as Hlt.
  pose proof (take_drop_middle l k x Hk) as Hl.
  rewrite insert_take_drop by done.
  assert (Z.of_nat (length l) - 1 - Z.of_nat k
          = Z.of_nat (length (drop (S k) l))) as ->
    by (rewrite length_drop; lia).
  remember (take k l) as l1. remember (drop (S k) l) as l2.
  rewrite <- Hl. rewrite !read_base3_app, !read_base3_cons.
  cbn [length]. rewrite Nat2Z.inj_succ, Z.pow_succ_r by lia. ring.
Qed.

Lemma unused_count_insert used : ∀ answer j a c,
  used !! j = Some false → answer !! j = Some a →
  (unused_count (<[j:=true]> used) answer c + (if decide (a = c) then 1 else 0)
   = unused_count used answer c)%nat.
Proof.
  unfold unused_count.
  induction used as [|u used IH]; intros [|a' answer] j a c Hu Ha; try done.
  destruct j as [|j]; simpl in Hu, Ha; simplify_eq.
  - simpl. rewrite !filter_cons. cbn [fst snd].
    repeat case_decide; simpl; try lia; intuition congruence.
  - simpl. rewrite !filter_cons. specialize (IH answer j a c Hu Ha).
    cbn [fst snd]. repeat case_decide; simpl; lia.
Qed.

Lemma unused_count_replicate n : ∀ answer c,
  (length answer ≤ n)%nat →
  unused_count (replicate n false) answer c = occ c answer.
Proof.
  unfold unused_count, occ.
  induction n as [|n IH]; intros [|a answer] c Hn; simpl in *; try done; try lia.
  rewrite !filter_cons. cbn [fst snd]. specialize (IH answer c).
  repeat case_decide; simpl; try (rewrite IH by lia; done); intuition congruence.
Qed.

Lemma unused_count_pos used answer j g :
  used !! j = Some false → answer !! j = Some g →
  (0 < unused_count used answer g)%nat.
Proof.
  intros Hu Ha. pose proof (unused_count_insert _ _ _ _ g Hu Ha) as H.
  rewrite decide_True in H by done. lia.
Qed.

Lemma vec_at_nat {A} (v : list A) (j : nat) : vec_at v (Z.of_nat j) = v !! j.
Proof. unfold vec_at. rewrite decide_True by lia. by rewrite Nat2Z.id. Qed.

Lemma vec_set_nat {A} (v : list A) (j : nat) x :
  (j < length v)%nat → vec_set v (Z.of_nat j) x = Some (<[j:=x]> v).
Proof.
  intros Hj. unfold vec_set. rewrite vec_at_nat.
  destruct (lookup_lt_is_Some_2 v j Hj) as [y ->]. simpl. by rewrite Nat2Z.id.
Qed.

(** The inner search returns, and finds a free position carrying [g]
    whenever there is one. *)
Lemma find_unused_spec g answer used n : ∀ j,
  (j + n = length answer)%nat → (length answer ≤ length used)%nat →
  ∃ found, find_unused g answer used n j = Some found ∧
    match found with
    | Some k => used !! k = Some false ∧ answer !! k = Some g
    | None =>
        length (filter (λ p, p.1 = false ∧ p.2 = g)
                       (zip (drop j used) (drop j answer))) = 0%nat
    end.
Proof.
  induction n as [|n IH]; intros j Hj Hlen.
  - exists None. split; [done|].
    rewrite (drop_ge answer) by lia. by rewrite zip_with_nil_r.
  - destruct (lookup_lt_is_Some_2 used j) as [u Hu]; [lia|].
    destruct (lookup_lt_is_Some_2 answer j) as [a Ha]; [lia|].
    destruct (IH (S j)) as (found & E & Hfound); [lia|done|].
    cbn [find_unused]. rewrite vec_at_nat, Hu. simpl.
    rewrite (drop_S _ _ _ Hu), (drop_S _ _ _ Ha) in *.
    destruct u.
    + exists found. split; [done|]. destruct found; [done|].
      simpl. rewrite filter_cons. cbn [fst snd].
      by rewrite decide_False by (by intros [? ?]).
    + rewrite (str_at_lookup _ _ _ Ha). simpl.
      destruct (decide (g = a)) as [->|Hne].
      * exists (Some j). done.
      * exists found. split; [done|]. destruct found; [done|].
        simpl. rewrite filter_cons. cbn [fst snd].
        by rewrite decide_False by (intros [? ?]; congruence).
Qed.

Lemma read_base3_replicate_B n : read_base3 (replicate n chr_B) = 0.
Proof.
  induction n as [|n IH]; [done|].
  cbn [replicate]. rewrite read_base3_cons, IH. done.
Qed.

Lemma green_inv_init guess target freq :
  freq_repr freq (λ c, 0 + Z.of_nat (occ c target)) →
  green_inv guess target 0 (replicate (length guess) chr_B, freq).
Proof.
  intros Hf. split; [by cbn [fst]; rewrite length_replicate|]. split.
  - intros j g t Hg Ht. cbn [fst]. rewrite decide_False by lia.
    apply lookup_replicate_2. by eapply lookup_lt_Some.
  - eapply freq_repr_ext; [|exact Hf]. intros c. cbn [snd].
    unfold exact_count. simpl. lia.
Qed.

(** ** The two encoders in lock step *)

Section encodings_agree.
Variables guess answer : word.
Hypothesis same_length : length guess = length answer.
Hypothesis short : (length guess ≤ 10)%nat.
Hypothesis guess_upper : upper_word guess = true.

Lemma exact_step_sim k st ct :
  (k < length guess)%nat → exact_sim guess answer k st ct →
  ∃ st' ct',
    green_step guess answer k st = Some st' ∧
    exact_step guess answer (Z.of_nat (length guess)) k ct = Some ct' ∧
    exact_sim guess answer (S k) st' ct'.
Proof.
  intros Hk (Hinv & Hul & Hpat & Hfree & Hcnt).
  destruct (green_step_inv guess answer same_length guess_upper k st Hk Hinv)
    as (st' & E & Hinv').
  destruct st as [res freq], ct as [pat used]. cbn [fst snd] in *.
  destruct (lookup_lt_is_Some_2 guess k Hk) as [g Hg].
  destruct (lookup_lt_is_Some_2 answer k) as [a Ha]; [lia|].
  pose proof Hinv as (Hlen & Hres & Hfreq). cbn [fst snd] in *.
  pose proof (Hres _ _ _ Hg Ha) as Hrk. rewrite decide_False in Hrk by lia.
  pose proof E as Estep.
  unfold green_step in E. rewrite Hg, (str_at_lookup _ _ _ Ha) in E.
  cbn [fst snd] in E. simpl in E.
  unfold exact_step.
  rewrite (str_at_lookup _ _ _ Hg), (str_at_lookup _ _ _ Ha). simpl.
  pose proof (λ c, exact_count_take_S _ _ _ _ _ c Hg Ha) as Hex.
  destruct (decide (g = a)) as [->|Hne].
  - destruct (vec_add freq (letter_index a) (-1)) as [freq'|] eqn:Ef;
      cbn in E; [|discriminate E]. injection E as <-.
    rewrite vec_set_nat by lia. simpl.
    eexists _, _. split; [exact Estep|]. split; [done|].
    split; [done|]. cbn [fst snd]. split; [by rewrite length_insert|]. split.
    { rewrite (read_base3_insert _ _ chr_B) by done. rewrite Hlen, Hpat.
      change (digit_of chr_G - digit_of chr_B) with 2. done. }
    split.
    + intros j Hj. rewrite list_lookup_insert_ne by lia. apply Hfree. lia.
    + intros c. rewrite (Hex c).
      pose proof (unused_count_insert used answer k a c) as Hins.
      rewrite Hfree in Hins by lia. specialize (Hins eq_refl Ha).
      specialize (Hcnt c).
      destruct (decide (a = c)) as [->|Hc].
      * rewrite decide_True by done. lia.
      * rewrite decide_False by (by intros [? ?]). lia.
  - injection E as <-.
    eexists _, _. split; [exact Estep|]. split; [done|].
    split; [done|]. cbn [fst snd]. split; [done|]. split; [done|]. split.
    + intros j Hj. apply Hfree. lia.
    + intros c. rewrite (Hex c), <- (Hcnt c).
      rewrite decide_False by (intros [? ?]; congruence). lia.
Qed.

Lemma exact_sim_done st ct :
  exact_sim guess answer (length guess) st ct → present_sim guess answer 0 st ct.
Proof.
  intros (Hinv & Hul & Hpat & Hfree & Hcnt).
  split; [by apply green_pass_done|]. split; [done|]. split; [done|].
  intros c. rewrite <- Hcnt. unfold remaining. rewrite present_before_0.
  rewrite !take_ge by lia. lia.
Qed.

Lemma present_step_sim k st ct :
  (k < length guess)%nat → present_sim guess answer k st ct →
  ∃ st' ct',
    yellow_step guess k st = Some st' ∧
    present_step guess answer (Z.of_nat (length guess)) k ct = Some ct' ∧
    present_sim guess answer (S k) st' ct'.
Proof.
  intros Hk (Hinv & Hul & Hpat & Hcnt).
  destruct (yellow_step_inv guess answer same_length guess_upper k st Hk Hinv)
    as (st' & E & Hinv').
  destruct st as [res freq], ct as [pat used]. cbn [fst snd] in *.
  destruct (lookup_lt_is_Some_2 guess k Hk) as [g Hg].
  destruct (lookup_lt_is_Some_2 answer k) as [a Ha]; [lia|].
  pose proof (upper_word_lookup _ _ _ guess_upper Hg) as Hup.
  pose proof Hinv as (Hlen & Hres & Hfl & Hfreq). cbn [fst snd] in *.
  pose proof (Hres _ _ _ Hg Ha) as Hrk.
  rewrite (decide_False (P := (k < k)%nat ∧ _)) in Hrk by lia.
  pose proof E as Estep.
  unfold yellow_step in E. cbn [fst snd] in E. rewrite Hg, Hrk in E. simpl in E.
  unfold present_step.
  rewrite (str_at_lookup _ _ _ Hg), (str_at_lookup _ _ _ Ha). simpl.
  destruct (decide (g = a)) as [->|Hne].
  - rewrite decide_False in E by done. injection E as <-.
    eexists _, _. split; [exact Estep|]. split; [done|].
    split; [done|]. cbn [fst snd]. split; [done|]. split; [done|].
    intros c. rewrite (remaining_S _ _ _ _ _ _ _ Hrk Hg), <- Hcnt.
    rewrite decide_False by (by intros [? ?]). lia.
  - rewrite decide_True in E by done.
    rewrite (Hfreq g Hup) in E. simpl in E.
    rewrite Nat2Z.id.
    destruct (find_unused_spec g answer used (length guess) 0)
      as (found & Ef & Hfound); [lia..|].
    rewrite Ef. simpl. rewrite !drop_0 in Hfound.
    destruct (decide (0 < remaining guess answer res k g)) as [Hpos|Hnpos].
    + destruct (vec_add freq (letter_index g) (-1)) as [freq'|] eqn:Eadd;
        cbn in E; [|discriminate E]. injection E as <-.
      destruct found as [j|].
      2:{ exfalso. specialize (Hcnt g). unfold unused_count in Hcnt. lia. }
      destruct Hfound as [Huj Haj].
      rewrite vec_set_nat by (apply lookup_lt_Some in Huj; lia). simpl.
      eexists _, _. split; [exact Estep|]. split; [done|].
      split; [done|]. cbn [fst snd]. split; [by rewrite length_insert|]. split.
      { rewrite (read_base3_insert _ _ chr_B) by done. rewrite Hlen, Hpat.
        change (digit_of chr_Y - digit_of chr_B) with 1. done. }
      intros c.
      rewrite (remaining_S _ _ _ k chr_Y g);
        [|by apply list_lookup_insert_eq; lia|done].
      rewrite remaining_insert by lia. rewrite Hcnt.
      pose proof (unused_count_insert used answer j g c Huj Haj) as Hins.
      destruct (decide (g = c)) as [->|Hc].
      * rewrite decide_True by done. lia.
      * rewrite decide_False by (by intros [? ?]). lia.
    + injection E as <-.
      destruct found as [j|].
      { exfalso. destruct Hfound as [Huj Haj].
        pose proof (unused_count_pos _ _ _ _ Huj Haj). specialize (Hcnt g). lia. }
      eexists _, _. split; [exact Estep|]. split; [done|].
      split; [done|]. cbn [fst snd]. split; [done|]. split; [done|].
      intros c. rewrite (remaining_S _ _ _ _ _ _ _ Hrk Hg), <- Hcnt.
      rewrite decide_False by (by intros [? ?]). lia.
Qed.

Hypothesis answer_upper : upper_word answer = true.

Lemma encoders_in_step :
  ∃ r, getPattern guess answer = Some r ∧
       get_pattern guess answer (Z.of_nat (length guess)) = Some (read_base3 r).
Proof.
  destruct (count_letters_spec answer _ _ answer_upper freq_repr_zero)
    as (freq0 & E0 & Hf0).
  destruct (for_loop_sim (exact_sim guess answer)
              (green_step guess answer)
              (exact_step guess answer (Z.of_nat (length guess)))
              (length guess) 0
              (replicate (length guess) chr_B, freq0) (0, replicate 10 false))
    as (st1 & ct1 & E1 & F1 & H1).
  { split; [by apply green_inv_init|]. cbn [fst snd].
    split; [done|]. split; [by rewrite read_base3_replicate_B|]. split.
    - intros j Hj. apply lookup_replicate_2. lia.
    - intros c. rewrite unused_count_replicate by lia.
      unfold exact_count. simpl. lia. }
  { intros k s t [_ Hk]. by apply exact_step_sim. }
  destruct (for_loop_sim (present_sim guess answer)
              (yellow_step guess)
              (present_step guess answer (Z.of_nat (length guess)))
              (length guess) 0 st1 ct1)
    as (st2 & ct2 & E2 & F2 & H2).
  { by apply exact_sim_done. }
  { intros k s t [_ Hk]. by apply present_step_sim. }
  exists st2.1. split.
  - unfold getPattern. cbv zeta. rewrite E0. cbn [mbind option_bind].
    rewrite E1. cbn [mbind option_bind]. by rewrite E2.
  - unfold get_pattern. cbv zeta. rewrite Nat2Z.id.
    rewrite F1. cbn [mbind option_bind]. rewrite F2. cbn [mbind option_bind].
    destruct H2 as (_ & _ & -> & _). done.
Qed.
End encodings_agree.

(** ** Claim C1 *)

(** C1. For upper-case words of equal length [getPattern] returns a string
    of marks with: G at [i] exactly when guess and target agree at [i];
    Y at a remaining position exactly when the guess letter [g] there still
    has a positive count once every exact match (at any position, before or
    after [i]) and every Y mark to the left of [i] has taken one occurrence
    of its letter from the target; B otherwise. Exact matches and Y marks
    together never take more occurrences of a letter than the target has.
    For words of at most 10 letters [get_pattern] returns the base-3
    reading of the same marks. *)
Theorem getPattern_exact_pass_before_present guess target :
  length guess = length target →
  upper_word guess = true → upper_word target = true →
  ∃ r, getPattern guess target = Some r ∧ length r = length guess ∧
    (∀ i g t, guess !! i = Some g → target !! i = Some t →
       (r !! i = Some chr_G ↔ g = t) ∧
       (r !! i = Some chr_Y ↔ g ≠ t ∧ 0 < remaining guess target r i g) ∧
       (r !! i = Some chr_B ↔ g ≠ t ∧ remaining guess target r i g <= 0)) ∧
    (∀ c, Z.of_nat (exact_count guess target c)
          + Z.of_nat (present_before r guess (length guess) c)
          <= Z.of_nat (occ c target)) ∧
    ((length guess ≤ 10)%nat →
     get_pattern guess target (Z.of_nat (length guess)) = Some (read_base3 r)).
Proof.
  intros Hsame Hg Ht.
  destruct (getPattern_inv guess target Hsame Hg Ht) as (r & freq & E & Hinv).
  exists r. split; [done|]. split; [apply Hinv|]. split; [|split].
  - intros i g t. by apply yellow_inv_marks with freq.
  - intros c.
    pose proof (yellow_inv_supply _ _ _ _ c Hsame Hinv (length guess)) as H.
    unfold remaining in H. lia.
  - intros Hshort.
    destruct (encoders_in_step guess target Hsame Hshort Hg Ht) as (r' & E' & F).
    rewrite E in E'. by injection E' as <-.
Qed.

Lemma getPattern_exact_pass_before_present_witness :
  ∃ r, getPattern (str "SPEED") (str "ERASE") = Some r ∧
       length r = length (str "SPEED") ∧
    (∀ i g t, str "SPEED" !! i = Some g → str "ERASE" !! i = Some t →
       (r !! i = Some chr_G ↔ g = t) ∧
       (r !! i = Some chr_Y
        ↔ g ≠ t ∧ 0 < remaining (str "SPEED") (str "ERASE") r i g) ∧
       (r !! i = Some chr_B
        ↔ g ≠ t ∧ remaining (str "SPEED") (str "ERASE") r i g <= 0)) ∧
    (∀ c, Z.of_nat (exact_count (str "SPEED") (str "ERASE") c)
          + Z.of_nat (present_before r (str "SPEED") (length (str "SPEED")) c)
          <= Z.of_nat (occ c (str "ERASE"))) ∧
    ((length (str "SPEED") ≤ 10)%nat →
     get_pattern (str "SPEED") (str "ERASE") (Z.of_nat (length (str "SPEED")))
     = Some (read_base3 r)).
Proof.
  apply (getPattern_exact_pass_before_present (str "SPEED") (str "ERASE"));
    reflexivity.
Defined.

(** The duplicate-letter vector of the regression test. *)
Example getPattern_SPEED_ERASE :
  getPattern (str "SPEED") (str "ERASE") = Some (str "YBYYB").
Proof. reflexivity. Qed.


(** ** Claim C8 *)

(** C8. For upper-case words of equal length at most 10, the integer
    returned by [get_pattern] is the symbol string returned by [getPattern]
    read in base 3, first position most significant, with G as 2, Y as 1
    and B as 0. *)
Theorem get_pattern_reads_getPattern guess answer :
  length guess = length answer → (length guess ≤ 10)%nat →
  upper_word guess = true → upper_word answer = true →
  ∃ r, getPattern guess answer = Some r ∧
       get_pattern guess answer (Z.of_nat (length guess)) = Some (read_base3 r).
Proof. intros Hsame Hshort Hg Ha. by apply encoders_in_step. Qed.

Lemma get_pattern_reads_getPattern_witness :
  ∃ r, getPattern (str "SPEED") (str "ERASE") = Some r ∧
       get_pattern (str "SPEED") (str "ERASE") (Z.of_nat (length (str "SPEED")))
       = Some (read_base3 r).
Proof.
  apply (get_pattern_reads_getPattern (str "SPEED") (str "ERASE"));
    [reflexivity | vm_compute; lia | reflexivity | reflexivity].
Defined.

(** ** [getPattern] on words of different lengths *)

Lemma str_at_in_range s i : (i ≤ length s)%nat → is_Some (str_at s i).
Proof.
  intros Hi. unfold str_at. destruct (s !! i) eqn:E; [done|].
  apply lookup_ge_None in E. by rewrite decide_True by lia.
Qed.

Lemma vec_at_upper (freq : list Z) c :
  length freq = 26%nat → is_upper c = true →
  is_Some (vec_at freq (letter_index c)).
Proof.
  intros Hl Hc. apply upper_index_range in Hc.
  unfold vec_at. rewrite decide_True by lia.
  apply lookup_lt_is_Some_2. lia.
Qed.

Lemma vec_add_upper freq c d :
  length freq = 26%nat → is_upper c = true →
  ∃ freq', vec_add freq (letter_index c) d = Some freq' ∧ length freq' = 26%nat.
Proof.
  intros Hl Hc. destruct (vec_at_upper freq c Hl Hc) as [n Hn].
  unfold vec_add. rewrite Hn. simpl. eexists; split; [done|].
  by rewrite length_insert.
Qed.

Lemma green_step_shape guess target k st :
  upper_word guess = true →
  (k < length guess)%nat → (length guess ≤ length target + 1)%nat →
  shape_inv guess st →
  ∃ st', green_step guess target k st = Some st' ∧ shape_inv guess st'.
Proof.
  intros Hup Hk Hlen [Hres Hfreq]. destruct st as [res freq]. cbn [fst snd] in *.
  destruct (lookup_lt_is_Some_2 guess k Hk) as [g Hg].
  destruct (str_at_in_range target k) as [t Ht]; [lia|].
  unfold green_step. rewrite Hg, Ht. simpl.
  destruct (decide (g = t)); [|by eexists].
  destruct (vec_add_upper freq g (-1) Hfreq) as (freq' & E & Hl').
  { by eapply upper_word_lookup. }
  rewrite E. simpl. eexists; split; [done|].
  split; [by cbn [fst]; rewrite length_insert|done].
Qed.

Lemma yellow_step_shape guess k st :
  upper_word guess = true → (k < length guess)%nat →
  shape_inv guess st →
  ∃ st', yellow_step guess k st = Some st' ∧ shape_inv guess st'.
Proof.
  intros Hup Hk [Hres Hfreq]. destruct st as [res freq]. cbn [fst snd] in *.
  destruct (lookup_lt_is_Some_2 guess k Hk) as [g Hg].
  destruct (lookup_lt_is_Some_2 res k) as [r Hr]; [lia|].
  pose proof (upper_word_lookup _ _ _ Hup Hg) as Hg_up.
  unfold yellow_step. cbn [fst snd]. rewrite Hg, Hr. simpl.
  destruct (decide (r = chr_B)); [|by eexists].
  destruct (vec_at_upper freq g Hfreq Hg_up) as [n Hn]. rewrite Hn. simpl.
  destruct (decide (0 < n)); [|by eexists].
  destruct (vec_add_upper freq g (-1) Hfreq Hg_up) as (freq' & E & Hl').
  rewrite E. simpl. eexists; split; [done|].
  split; [by cbn [fst]; rewrite length_insert|done].
Qed.

(** ** Claim C5 *)

(** C5, as the code has it. [getPattern] compares no lengths and reports
    no error: for words over the upper-case alphabet it returns one mark
    per guess position whenever the guess is at most one character longer
    than the target, in particular for words of equal length. *)
Theorem getPattern_checks_no_length guess target :
  upper_word guess = true → upper_word target = true →
  (length guess ≤ length target + 1)%nat →
  ∃ r, getPattern guess target = Some r ∧ length r = length guess.
Proof.
  intros Hg Ht Hlen. unfold getPattern. cbv zeta.
  destruct (count_letters_spec target _ _ Ht freq_repr_zero)
    as (freq0 & E0 & [Hl0 _]).
  rewrite E0. cbn [mbind option_bind].
  destruct (for_loop_inv (λ _, shape_inv guess) (green_step guess target)
              (length guess) 0 (replicate (length guess) chr_B, freq0))
    as (st1 & E1 & H1).
  { split; [by cbn [fst]; rewrite length_replicate|done]. }
  { intros k s [_ Hk]. by apply green_step_shape. }
  rewrite E1. cbn [mbind option_bind].
  destruct (for_loop_inv (λ _, shape_inv guess) (yellow_step guess)
              (length guess) 0 st1) as (st2 & E2 & H2); [done|..].
  { intros k s [_ Hk]. by apply yellow_step_shape. }
  rewrite E2. cbn [mbind option_bind]. exists st2.1. split; [done|]. apply H2.
Qed.

Lemma getPattern_checks_no_length_witness :
  ∃ r, getPattern (str "AB") (str "A") = Some r ∧ length r = length (str "AB").
Proof.
  apply (getPattern_checks_no_length (str "AB") (str "A"));
    [reflexivity | reflexivity | vm_compute; lia].
Defined.

(** Guess and target of different lengths: a pattern is returned. *)
Lemma getPattern_length_mismatch_accepted :
  length (str "A") ≠ length (str "AB") ∧
  getPattern (str "A") (str "AB") = Some (str "G").
Proof. split; [by vm_compute | reflexivity]. Qed.

(** ** The checks of [filterWords] *)

Lemma find_char_None word c : find_char word c = None ↔ c ∉ word.
Proof.
  induction word as [|x word IH]; simpl.
  - split; [intros _; apply not_elem_of_nil|done].
  - rewrite not_elem_of_cons. destruct (decide (x = c)) as [->|Hne].
    + split; [done|]. intros [? _]. done.
    + rewrite fmap_None, IH. split; [by intros; split|by intros [_ ?]].
Qed.

Lemma find_char_Some word c : is_Some (find_char word c) ↔ c ∈ word.
Proof.
  rewrite <- not_eq_None_Some, find_char_None.
  destruct (decide (c ∈ word)); tauto.
Qed.

Lemma all_ok_spec {A} (check : A → option bool) (P : A → Prop) l :
  (∀ x, x ∈ l → ∃ b, check x = Some b ∧ (b = true ↔ P x)) →
  ∃ b, all_ok check l = Some b ∧ (b = true ↔ ∀ x, x ∈ l → P x).
Proof.
  induction l as [|x l IH]; intros H.
  - exists true. split; [done|]. split; [|done]. intros _ x Hx.
    by apply elem_of_nil in Hx.
  - destruct (H x) as (b & E & Hb); [left|].
    destruct IH as (b' & E' & Hb'); [intros y Hy; apply H; by right|].
    cbn [all_ok]. rewrite E. simpl. destruct b.
    + exists b'. split; [done|]. rewrite Hb'. split.
      * intros Hl y [->|Hy]%elem_of_cons; [by apply Hb|by apply Hl].
      * intros Hl y Hy. apply Hl. by right.
    + exists false. split; [done|]. split; [done|].
      intros Hl. apply Hb, Hl. left.
Qed.

Lemma all_ok_total {A} (check : A → option bool) l :
  (∀ x, x ∈ l → is_Some (check x)) → is_Some (all_ok check l).
Proof.
  intros H. destruct (all_ok_spec check (λ x, check x = Some true) l) as (b & E & _).
  - intros x Hx. destruct (H x Hx) as [b Hb]. exists b. split; [done|].
    rewrite Hb. split; [by intros ->|by intros [= ->]].
  - by exists b.
Qed.

Lemma all_ok_filter {A} (check : A → option bool) (Q : A → Prop)
    `{∀ x, Decision (Q x)} l :
  (∀ x, x ∈ l → ¬ Q x → check x = Some true) →
  all_ok check (filter Q l) = all_ok check l.
Proof.
  induction l as [|x l IH]; intros Hl; [done|].
  rewrite filter_cons. destruct (decide (Q x)) as [Hq|Hq].
  - cbn [all_ok]. rewrite IH; [done|]. intros y Hy. apply Hl. by right.
  - cbn [all_ok]. rewrite (Hl x) by (done || left). simpl.
    apply IH. intros y Hy. apply Hl. by right.
Qed.

Lemma all_ok_fmap {A B} (check : A → option bool) (check' : B → option bool)
    (f : B → A) l :
  (∀ x, x ∈ l → check (f x) = check' x) →
  all_ok check (f <$> l) = all_ok check' l.
Proof.
  induction l as [|x l IH]; intros Hl; [done|].
  cbn [fmap list_fmap all_ok]. rewrite (Hl x) by left.
  destruct (check' x) as [[]|]; simpl; [|done..].
  apply IH. intros y Hy. apply Hl. by right.
Qed.

(** The green loop returns, and accepts exactly when every examined
    position with a non-empty entry carries that entry's first letter. *)
Lemma green_loop_spec knownPositions word n : ∀ i,
  (i + n ≤ length knownPositions)%nat → (i + n ≤ length word)%nat →
  ∃ b, green_loop knownPositions word n i = Some b ∧
       (b = true ↔ ∀ k c x, (i ≤ k < i + n)%nat →
                            green_required knownPositions k = Some c →
                            word !! k = Some x → x = c).
Proof.
  induction n as [|n IH]; intros i Hkp Hw.
  - exists true. split; [done|]. split; [|done]. intros _ k c x Hk. lia.
  - destruct (lookup_lt_is_Some_2 knownPositions i) as [known Hknown]; [lia|].
    destruct (lookup_lt_is_Some_2 word i) as [x Hx]; [lia|].
    destruct (IH (S i)) as (b & E & Hb); [lia..|].
    cbn [green_loop]. rewrite Hknown. simpl.
    destruct known as [|k0 known].
    + rewrite bool_decide_eq_true_2 by done. exists b. split; [done|].
      rewrite Hb. split.
      * intros Hall k c y Hk. destruct (decide (k = i)) as [->|].
        -- unfold green_required. rewrite Hknown. done.
        -- apply Hall. lia.
      * intros Hall k c y Hk. apply Hall. lia.
    + rewrite bool_decide_eq_false_2 by done.
      rewrite (str_at_lookup _ _ _ Hx). simpl.
      destruct (decide (x ≠ k0)) as [Hne|Heq].
      * exists false. split; [done|]. split; [done|]. intros Hall. exfalso.
        apply Hne. apply (Hall i k0 x); [lia| |done].
        unfold green_required. by rewrite Hknown.
      * apply dec_stable in Heq. subst k0. exists b. split; [done|].
        rewrite Hb. split.
        -- intros Hall k c y Hk Hreq Hy. destruct (decide (k = i)) as [->|].
           ++ unfold green_required in Hreq. rewrite Hknown in Hreq.
              simpl in Hreq. congruence.
           ++ apply (Hall k); [lia|done..].
        -- intros Hall k c y Hk. apply Hall. lia.
Qed.

Lemma green_check_spec knownPositions word :
  ∃ b, green_check knownPositions word = Some b ∧
       (b = true ↔ green_ok knownPositions word).
Proof.
  unfold green_check.
  destruct (green_loop_spec knownPositions word
              (length knownPositions `min` length word) 0) as (b & E & Hb);
    [lia..|].
  exists b. split; [done|]. rewrite Hb. unfold green_ok. split.
  - intros H i c x Hreq Hx. apply (H i c x); [|done..].
    apply lookup_lt_Some in Hx. unfold green_required in Hreq.
    destruct (knownPositions !! i) eqn:Hk; [|done].
    apply lookup_lt_Some in Hk. lia.
  - intros H k c x _. apply H.
Qed.

Lemma int_range_spec x : int_range x = true ↔ - 2 ^ 31 <= x < 2 ^ 31.
Proof. unfold int_range. rewrite andb_true_iff, Z.leb_le, Z.ltb_lt. done. Qed.

Lemma excluded_hit_total word letter pos : is_Some (excluded_hit word letter pos).
Proof.
  unfold excluded_hit. cbv zeta.
  destruct (decide (size_t_of_int pos < Z.of_nat (length word))) as [Hlt|]; [|done].
  assert (0 <= size_t_of_int pos) by (unfold size_t_of_int; apply Z.mod_pos_bound; lia).
  destruct (lookup_lt_is_Some_2 word (Z.to_nat (size_t_of_int pos))) as [c Hc]; [lia|].
  rewrite (str_at_lookup _ _ _ Hc). done.
Qed.

(** For an [int] index and a representable word, the guarded comparison
    is the plain one: a hit is a letter found at a valid index. *)
Lemma excluded_hit_spec word letter pos :
  Z.of_nat (length word) < 2 ^ 31 → int_range pos = true →
  excluded_hit word letter pos = Some (bool_decide (has_letter_at word letter pos)).
Proof.
  intros Hw Hpos%int_range_spec. unfold excluded_hit, has_letter_at. cbv zeta.
  unfold size_t_of_int. destruct (decide (0 <= pos)) as [Hnn|Hneg].
  - rewrite Z.mod_small by lia.
    destruct (decide (pos < Z.of_nat (length word))) as [Hlt|Hge].
    + destruct (lookup_lt_is_Some_2 word (Z.to_nat pos)) as [c Hc]; [lia|].
      rewrite (str_at_lookup _ _ _ Hc), Hc. simpl. f_equal.
      apply bool_decide_ext. split; [by intros ->|]. by intros [_ [= ->]].
    + rewrite (lookup_ge_None_2 word (Z.to_nat pos)) by lia.
      by rewrite bool_decide_eq_false_2 by (by intros [_ ?]).
  - replace (pos mod 2 ^ 32) with (pos + 2 ^ 32)
      by (apply Z.mod_unique with (-1); lia).
    rewrite decide_False by lia.
    by rewrite bool_decide_eq_false_2 by (intros [? _]; lia).
Qed.

Lemma positions_in_range_elem ys y pos :
  positions_in_range ys = true → y ∈ ys → pos ∈ y.2 → int_range pos = true.
Proof.
  unfold positions_in_range. rewrite forallb_forall. intros H Hy Hp.
  apply list_elem_of_In in Hy. specialize (H y Hy).
  rewrite forallb_forall in H. apply H. by apply list_elem_of_In.
Qed.

Lemma representable_words_elem words w :
  representable_words words = true → w ∈ words → Z.of_nat (length w) < 2 ^ 31.
Proof.
  unfold representable_words. rewrite forallb_forall. intros H Hw.
  apply list_elem_of_In in Hw. specialize (H w Hw). by apply Z.ltb_lt in H.
Qed.

Lemma yellow_item_ok_total word y : is_Some (yellow_item_ok word y).
Proof.
  unfold yellow_item_ok. destruct (find_char word y.1); [|done].
  apply all_ok_total. intros pos _.
  destruct (excluded_hit_total word y.1 pos) as [b ->]. done.
Qed.

Lemma yellow_item_ok_spec word y :
  Z.of_nat (length word) < 2 ^ 31 → forallb int_range y.2 = true →
  ∃ b, yellow_item_ok word y = Some b ∧
       (b = true ↔ y.1 ∈ word ∧ ∀ pos, pos ∈ y.2 → ¬ has_letter_at word y.1 pos).
Proof.
  intros Hw Hr. unfold yellow_item_ok.
  destruct (find_char word y.1) as [k|] eqn:Hfind.
  - assert (y.1 ∈ word) as Hin by (apply find_char_Some; by rewrite Hfind).
    destruct (all_ok_spec
                (λ pos, hit ← excluded_hit word y.1 pos; Some (negb hit))
                (λ pos, ¬ has_letter_at word y.1 pos) y.2) as (b & E & Hb).
    { intros pos Hpos. rewrite excluded_hit_spec; [|done|].
      - simpl. eexists; split; [done|].
        rewrite negb_true_iff, bool_decide_eq_false. done.
      - rewrite forallb_forall in Hr. apply Hr. by apply list_elem_of_In. }
    exists b. split; [done|]. rewrite Hb. tauto.
  - exists false. split; [done|]. split; [done|].
    intros [Hin _]. by apply find_char_None in Hfind.
Qed.

Lemma gray_item_ok_spec word grayLetter :
  ∃ b, gray_item_ok word grayLetter = Some b ∧
       (b = true ↔ ∀ g, head grayLetter = Some g → g ∉ word).
Proof.
  unfold gray_item_ok. destruct grayLetter as [|g rest].
  - rewrite bool_decide_eq_true_2 by done. exists true. by split.
  - rewrite bool_decide_eq_false_2 by done.
    change (str_at (g :: rest) 0) with (Some g). simpl.
    eexists; split; [done|].
    rewrite bool_decide_eq_true, find_char_None. split.
    + by intros H g' [= <-].
    + intros H. by apply H.
Qed.

Lemma yellow_check_total ys word : is_Some (yellow_check ys word).
Proof. apply all_ok_total. intros y _. apply yellow_item_ok_total. Qed.

Lemma yellow_check_spec ys word :
  Z.of_nat (length word) < 2 ^ 31 → positions_in_range ys = true →
  ∃ b, yellow_check ys word = Some b ∧ (b = true ↔ yellow_ok ys word).
Proof.
  intros Hw Hr. apply all_ok_spec. intros y Hy. apply yellow_item_ok_spec; [done|].
  unfold positions_in_range in Hr. rewrite forallb_forall in Hr.
  apply Hr. by apply list_elem_of_In.
Qed.

Lemma gray_check_spec gs word :
  ∃ b, gray_check gs word = Some b ∧ (b = true ↔ gray_ok gs word).
Proof.
  destruct (all_ok_spec (gray_item_ok word)
              (λ s, ∀ g, head s = Some g → g ∉ word) gs) as (b & E & Hb).
  { intros s _. apply gray_item_ok_spec. }
  exists b. split; [done|]. rewrite Hb. unfold gray_ok. split.
  - intros H s g Hs. by apply H.
  - intros H s Hs g. by apply (H s g).
Qed.

(** The per-word check always returns. *)
Lemma word_valid_total kp ys gs word : is_Some (word_valid kp ys gs word).
Proof.
  unfold word_valid.
  destruct (green_check_spec kp word) as (b1 & -> & _). simpl.
  destruct b1; [|done]. simpl.
  destruct (yellow_check_total ys word) as [b2 ->]. simpl.
  destruct b2; [|done]. simpl.
  destruct (gray_check_spec gs word) as (b3 & -> & _). done.
Qed.

Lemma word_valid_spec kp ys gs word :
  Z.of_nat (length word) < 2 ^ 31 → positions_in_range ys = true →
  ∃ b, word_valid kp ys gs word = Some b ∧
       (b = true ↔ green_ok kp word ∧ yellow_ok ys word ∧ gray_ok gs word).
Proof.
  intros Hw Hr. unfold word_valid.
  destruct (green_check_spec kp word) as (b1 & -> & H1). simpl.
  destruct b1; simpl.
  2:{ exists false. split; [done|]. split; [done|]. intros (Hg & _). by apply H1. }
  destruct (yellow_check_spec ys word Hw Hr) as (b2 & -> & H2). simpl.
  destruct b2; simpl.
  2:{ exists false. split; [done|]. split; [done|]. intros (_ & Hy & _). by apply H2. }
  destruct (gray_check_spec gs word) as (b3 & -> & H3).
  exists b3. split; [done|]. rewrite H3. intuition.
Qed.

(** The loop over [words] is a filter. *)
Lemma filter_loop_spec valid words : ∀ filtered,
  (∀ w, w ∈ words → is_Some (valid w)) →
  filter_loop valid words filtered
  = Some (filtered ++ filter (λ w, valid w = Some true) words).
Proof.
  induction words as [|w words IH]; intros filtered Htotal.
  - simpl. by rewrite app_nil_r.
  - destruct (Htotal w) as [b Hb]; [left|].
    cbn [filter_loop]. rewrite Hb. simpl.
    rewrite IH by (intros w' Hw'; apply Htotal; by right).
    rewrite filter_cons. destruct b.
    + rewrite decide_True by done. by rewrite <- app_assoc.
    + rewrite decide_False by (by rewrite Hb). done.
Qed.

Lemma filter_core_spec words kp ys gs :
  filter_core words kp ys gs
  = Some (filter (λ w, word_valid kp ys gs w = Some true) words).
Proof.
  unfold filter_core. rewrite filter_loop_spec; [done|].
  intros w _. apply word_valid_total.
Qed.

(** ** Upper-casing on entry *)

Lemma toupper_idemp c : toupper (toupper c) = toupper c.
Proof. by destruct c as [[] [] [] [] [] [] [] []]. Qed.

Lemma upcase_idemp s : upcase (upcase s) = upcase s.
Proof.
  unfold upcase. rewrite <- list_fmap_compose. apply list_fmap_ext.
  intros _ c _. apply toupper_idemp.
Qed.

Lemma filter_upcased (P : word → Prop) `{∀ x, Decision (P x)} (l : list word) :
  upcase <$> filter P (upcase <$> l) = filter P (upcase <$> l).
Proof.
  induction l as [|x l IH]; [done|].
  cbn [fmap list_fmap]. rewrite filter_cons.
  destruct (decide (P (upcase x))); [|done].
  cbn [fmap list_fmap]. rewrite upcase_idemp. f_equal. exact IH.
Qed.

Lemma filter_idemp {A} (P : A → Prop) `{∀ x, Decision (P x)} (l : list A) :
  filter P (filter P l) = filter P l.
Proof.
  induction l as [|x l IH]; [done|].
  rewrite filter_cons. destruct (decide (P x)) as [Hp|Hp]; [|done].
  rewrite filter_cons, decide_True by done. by f_equal.
Qed.

(** ** Claim C10 *)

(** C10. The green check always returns. It accepts exactly when every
    position [i] that both the green list and the word have carries either
    an empty entry or an entry whose first letter is the word's letter at
    [i]; entries at positions the word lacks play no part: the check gives
    the same answer on the green list cut to the word's length. *)
Theorem green_check_wildcards_and_bounds knownPositions word :
  ∃ b, green_check knownPositions word = Some b ∧
       (b = true ↔
        ∀ i known x, knownPositions !! i = Some known → word !! i = Some x →
                     known = [] ∨ head known = Some x) ∧
       green_check (take (length word) knownPositions) word = Some b.
Proof.
  destruct (green_check_spec knownPositions word) as (b & E & Hb).
  destruct (green_check_spec (take (length word) knownPositions) word)
    as (b' & E' & Hb').
  assert (green_ok knownPositions word ↔
          ∀ i known x, knownPositions !! i = Some known → word !! i = Some x →
                       known = [] ∨ head known = Some x) as Hok.
  { unfold green_ok, green_required. split.
    - intros H i known x Hk Hx. destruct known as [|k0 known]; [by left|].
      right. simpl. f_equal. symmetry. apply (H i k0 x); [|done].
      by rewrite Hk.
    - intros H i c x Hreq Hx. destruct (knownPositions !! i) as [known|] eqn:Hk;
        [|done]. simpl in Hreq.
      destruct (H i known x Hk Hx) as [->|Hh]; [done|]. congruence. }
  assert (green_ok (take (length word) knownPositions) word
          ↔ green_ok knownPositions word) as Hcut.
  { unfold green_ok, green_required. split.
    - intros H i c x Hreq Hx. apply (H i c x); [|done].
      rewrite lookup_take_lt by (by eapply lookup_lt_Some). done.
    - intros H i c x Hreq Hx. apply (H i c x); [|done].
      rewrite lookup_take_lt in Hreq by (by eapply lookup_lt_Some). done. }
  exists b. split; [done|]. split; [by rewrite Hb|].
  rewrite E'. f_equal. destruct b, b'; try done.
  - assert (false = true) as Hf by (apply Hb', Hcut, Hb; done). done.
  - assert (false = true) as Hf by (apply Hb, Hcut, Hb'; done). done.
Qed.

(** A word shorter than the green list is judged on its own positions. *)
Example green_check_short_word :
  green_check [str ""; str "B"; str "C"] (str "AB") = Some true.
Proof. reflexivity. Qed.

(** ** Claim C3 *)

(** C3, as the code has it. For representable words and [int] positions
    the filter returns a subsequence of its input, and a word of the input
    is in the output exactly when: at every green-constrained position that
    the word has, it carries the required letter; every yellow letter
    occurs in it, and at none of that letter's excluded positions; and it
    contains no gray letter. *)
Theorem filter_core_selects_valid_words words knownPositions yellowLetters grayLetters :
  representable_words words = true →
  positions_in_range yellowLetters = true →
  ∃ out, filter_core words knownPositions yellowLetters grayLetters = Some out ∧
         out `sublist_of` words ∧
         ∀ w, w ∈ out ↔ w ∈ words ∧ green_ok knownPositions w ∧
                                  yellow_ok yellowLetters w ∧
                                  gray_ok grayLetters w.
Proof.
  intros Hwords Hpos. eexists. split; [apply filter_core_spec|].
  split; [apply sublist_filter|].
  intros w. rewrite list_elem_of_filter. split.
  - intros [Hv Hin]. split; [done|].
    destruct (word_valid_spec knownPositions yellowLetters grayLetters w)
      as (b & E & Hb); [by eapply representable_words_elem|done|].
    apply Hb. congruence.
  - intros [Hin Hok]. split; [|done].
    destruct (word_valid_spec knownPositions yellowLetters grayLetters w)
      as (b & E & Hb); [by eapply representable_words_elem|done|].
    rewrite E. f_equal. by apply Hb.
Qed.

Lemma filter_core_selects_valid_words_witness :
  ∃ out, filter_core [str "CRANE"; str "SLATE"; str "TRACE"]
                     [str ""; str "R"] [("C"%char, [0; 7; -1])] [str "S"]
         = Some out ∧
         out `sublist_of` [str "CRANE"; str "SLATE"; str "TRACE"] ∧
         ∀ w, w ∈ out ↔ w ∈ [str "CRANE"; str "SLATE"; str "TRACE"] ∧
                        green_ok [str ""; str "R"] w ∧
                        yellow_ok [("C"%char, [0; 7; -1])] w ∧
                        gray_ok [str "S"] w.
Proof.
  apply (filter_core_selects_valid_words
           [str "CRANE"; str "SLATE"; str "TRACE"]
           [str ""; str "R"] [("C"%char, [0; 7; -1])] [str "S"]);
    reflexivity.
Defined.

(** A word in the output that lacks a green-constrained position. *)
Lemma filter_core_keeps_word_without_green_position :
  filter_core [str "AB"] [str ""; str ""; str "C"] [] [] = Some [str "AB"] ∧
  green_required [str ""; str ""; str "C"] 2 = Some "C"%char ∧
  str "AB" !! 2%nat ≠ Some "C"%char.
Proof. split; [reflexivity|]. split; [reflexivity|]. by vm_compute. Qed.

(** ** Claim C6 *)

(** C6. [filterWords] always returns, and applied to its own output with
    the same constraints it returns that output again. *)
Theorem filterWords_idempotent wordsJS knownPositionsJS yellowLettersJS grayLettersJS :
  ∃ out, filterWords wordsJS knownPositionsJS yellowLettersJS grayLettersJS
         = Some out ∧
         filterWords out knownPositionsJS yellowLettersJS grayLettersJS = Some out.
Proof.
  unfold filterWords. eexists. split; [apply filter_core_spec|].
  rewrite filter_core_spec. f_equal.
  rewrite filter_upcased. apply filter_idemp.
Qed.

(** The loop itself is idempotent on the converted vectors. *)
Lemma filter_core_idempotent words kp ys gs out :
  filter_core words kp ys gs = Some out → filter_core out kp ys gs = Some out.
Proof.
  rewrite !filter_core_spec. intros [= <-]. f_equal. apply filter_idemp.
Qed.

(** ** Excluded positions outside the word *)

Lemma filter_ext_in {A} (P Q : A → Prop) `{∀ x, Decision (P x)}
    `{∀ x, Decision (Q x)} (l : list A) :
  (∀ x, x ∈ l → P x ↔ Q x) → filter P l = filter Q l.
Proof.
  induction l as [|x l IH]; intros Hl; [done|].
  rewrite !filter_cons. rewrite IH by (intros y Hy; apply Hl; by right).
  destruct (decide (P x)) as [Hp|Hp].
  - rewrite decide_True; [done|]. apply Hl; [left|done].
  - rewrite decide_False; [done|]. intros Hq. apply Hp. apply Hl; [left|done].
Qed.

Lemma yellow_check_prune n ys w :
  Z.of_nat (length w) < 2 ^ 31 → positions_in_range ys = true →
  (length w ≤ n)%nat →
  yellow_check (prune_positions n ys) w = yellow_check ys w.
Proof.
  intros Hw Hr Hn. unfold yellow_check, prune_positions.
  apply all_ok_fmap. intros y Hy. unfold yellow_item_ok. cbn [fst snd].
  destruct (find_char w y.1); [|done].
  apply all_ok_filter. intros pos Hpos Hout.
  rewrite excluded_hit_spec;
    [|done|by eapply positions_in_range_elem].
  simpl. rewrite bool_decide_eq_false_2; [done|].
  intros [Hnn Hlook]. apply lookup_lt_Some in Hlook. lia.
Qed.

Lemma word_valid_prune n kp ys gs w :
  Z.of_nat (length w) < 2 ^ 31 → positions_in_range ys = true →
  (length w ≤ n)%nat →
  word_valid kp (prune_positions n ys) gs w = word_valid kp ys gs w.
Proof. intros. unfold word_valid. by rewrite yellow_check_prune. Qed.

Lemma words_within_elem n words w :
  words_within n words = true → w ∈ words → (length w ≤ n)%nat.
Proof.
  unfold words_within. rewrite forallb_forall. intros H Hw.
  apply list_elem_of_In in Hw. specialize (H w Hw). by apply Nat.leb_le in H.
Qed.

(** ** Claim C7 *)

(** C7. For representable words and [int] positions: the filter always
    returns; an excluded position that is no index of the word being
    checked is no hit for it, and dropping such positions from the yellow
    constraints does not change the verdict on the word; and the filter
    returns the same list with and without the excluded positions that are
    no index of any of its words. *)
Theorem filter_ignores_positions_outside_word n words knownPositions
    yellowLetters grayLetters :
  representable_words words = true →
  positions_in_range yellowLetters = true →
  words_within n words = true →
  is_Some (filter_core words knownPositions yellowLetters grayLetters) ∧
  (∀ w letter pos, w ∈ words → int_range pos = true →
     ¬ (0 <= pos < Z.of_nat (length w)) →
     excluded_hit w letter pos = Some false) ∧
  (∀ w, w ∈ words →
     word_valid knownPositions (prune_positions (length w) yellowLetters)
                grayLetters w
     = word_valid knownPositions yellowLetters grayLetters w) ∧
  filter_core words knownPositions (prune_positions n yellowLetters) grayLetters
  = filter_core words knownPositions yellowLetters grayLetters.
Proof.
  intros Hwords Hpos Hn. split; [by rewrite filter_core_spec|]. split; [|split].
  - intros w letter pos Hw Hr Hout.
    rewrite excluded_hit_spec; [|by eapply representable_words_elem|done].
    rewrite bool_decide_eq_false_2; [done|].
    intros [Hnn Hlook]. apply lookup_lt_Some in Hlook. lia.
  - intros w Hw. apply word_valid_prune;
      [by eapply representable_words_elem|done|lia].
  - rewrite !filter_core_spec. f_equal. apply filter_ext_in.
    intros w Hw. rewrite word_valid_prune;
      [done|by eapply representable_words_elem|done|by eapply words_within_elem].
Qed.

Lemma filter_ignores_positions_outside_word_witness :
  is_Some (filter_core [str "CRANE"; str "TRACE"] [] [("C"%char, [0; 5; 99; -1])] []) ∧
  (∀ w letter pos, w ∈ [str "CRANE"; str "TRACE"] → int_range pos = true →
     ¬ (0 <= pos < Z.of_nat (length w)) →
     excluded_hit w letter pos = Some false) ∧
  (∀ w, w ∈ [str "CRANE"; str "TRACE"] →
     word_valid [] (prune_positions (length w) [("C"%char, [0; 5; 99; -1])]) [] w
     = word_valid [] [("C"%char, [0; 5; 99; -1])] [] w) ∧
  filter_core [str "CRANE"; str "TRACE"] []
              (prune_positions 5 [("C"%char, [0; 5; 99; -1])]) []
  = filter_core [str "CRANE"; str "TRACE"] [] [("C"%char, [0; 5; 99; -1])] [].
Proof.
  apply (filter_ignores_positions_outside_word 5
           [str "CRANE"; str "TRACE"] [] [("C"%char, [0; 5; 99; -1])] []);
    reflexivity.
Defined.

(** Positions 5, 99 and -1 of a five-letter word are passed over. *)
Example filter_core_out_of_range_positions :
  filter_core [str "CRANE"; str "TRACE"] [] [("C"%char, [0; 5; 99; -1])] []
  = Some [str "TRACE"].
Proof. reflexivity. Qed.

(** ** Claim C9 *)

(** C9. [calculate_entropy_c] returns 0 for every string: the calculator
    it constructs has no possible answers, so [calculateEntropy] takes its
    [size() <= 1] branch. *)
Theorem calculate_entropy_c_is_zero word :
  possibleAnswers new_calculator = [] ∧
  calculate_entropy_c word = Some 0%R.
Proof. split; reflexivity. Qed.

(** ** Counting patterns *)

Lemma count_of_cons p x ps :
  count_of p (x :: ps) = ((if decide (x = p) then 1 else 0) + count_of p ps)%nat.
Proof. unfold count_of. rewrite filter_cons. by destruct (decide (x = p)). Qed.

Lemma count_of_pos p ps : p ∈ ps ↔ (0 < count_of p ps)%nat.
Proof.
  induction ps as [|x ps IH].
  - split; [by intros ?%elem_of_nil|]. unfold count_of. simpl. lia.
  - rewrite count_of_cons, elem_of_cons, IH.
    destruct (decide (x = p)) as [->|Hne]; [split; [lia|by left]|].
    split; [intros [?|?]; [congruence|lia]|intros ?; right; lia].
Qed.

Lemma count_of_le p ps : (count_of p ps ≤ length ps)%nat.
Proof. apply length_filter. Qed.

Lemma count_of_full p ps :
  count_of p ps = length ps ↔ ∀ q, q ∈ ps → q = p.
Proof.
  induction ps as [|x ps IH].
  - split; [intros _ q ?%elem_of_nil; done|done].
  - rewrite count_of_cons. cbn [length]. pose proof (count_of_le p ps) as Hle.
    destruct (decide (x = p)) as [->|Hne].
    + split.
      * intros Hc q [->|Hq]%elem_of_cons; [done|]. apply IH; [lia|done].
      * intros Hall. simpl. f_equal. apply IH. intros q Hq. apply Hall. by right.
    + split; [lia|]. intros Hall. exfalso. apply Hne. apply Hall. left.
Qed.

Lemma all_full_iff_all_equal ps :
  (∀ p, p ∈ ps → count_of p ps = length ps) ↔ (∀ p q, p ∈ ps → q ∈ ps → p = q).
Proof.
  split.
  - intros H p q Hp Hq. symmetry. by apply (count_of_full p ps); [apply H|].
  - intros H p Hp. apply count_of_full. intros q Hq. by apply H.
Qed.

Lemma all_once_iff_NoDup ps :
  (∀ p, p ∈ ps → count_of p ps = 1%nat) ↔ NoDup ps.
Proof.
  induction ps as [|x ps IH].
  - split; [constructor|]. by intros _ p ?%elem_of_nil.
  - rewrite NoDup_cons, <- IH. split.
    + intros Hall. assert (x ∉ ps) as Hx.
      { intros Hin%count_of_pos. specialize (Hall x (list_elem_of_here _ _)).
        rewrite count_of_cons, decide_True in Hall by done. lia. }
      split; [done|]. intros p Hp.
      specialize (Hall p (list_elem_of_further _ _ _ Hp)).
      rewrite count_of_cons, decide_False in Hall by (intros ->; done). done.
    + intros [Hx Hall] p [->|Hp]%elem_of_cons.
      * rewrite count_of_cons, decide_True by done.
        destruct (count_of x ps) eqn:E; [done|].
        exfalso. apply Hx, count_of_pos. lia.
      * rewrite count_of_cons, decide_False by (intros ->; done). by apply Hall.
Qed.

Lemma sum_indicator (x : word) D :
  NoDup D → x ∈ D →
  sum_list_with (λ p, if decide (x = p) then 1%nat else 0%nat) D = 1%nat.
Proof.
  induction 1 as [|y D Hy HD IH]; [by intros ?%elem_of_nil|].
  intros Hx. cbn [sum_list_with]. destruct (decide (x = y)) as [->|Hne].
  - assert (sum_list_with (λ p, if decide (y = p) then 1%nat else 0%nat) D = 0%nat)
      as ->; [|done].
    clear IH HD Hx. induction D as [|z D IHD]; [done|].
    cbn [sum_list_with]. rewrite not_elem_of_cons in Hy. destruct Hy as [Hyz Hy].
    rewrite decide_False by done. by rewrite IHD.
  - apply elem_of_cons in Hx as [?|Hx]; [done|]. by rewrite IH.
Qed.

Lemma sum_count_of ps : ∀ D,
  NoDup D → (∀ p, p ∈ ps → p ∈ D) →
  sum_list_with (λ p, count_of p ps) D = length ps.
Proof.
  induction ps as [|x ps IH]; intros D HD Hsub.
  - clear. induction D as [|y D IHD]; [done|]. cbn [sum_list_with]. by rewrite IHD.
  - assert (sum_list_with (λ p, count_of p (x :: ps)) D
            = (sum_list_with (λ p, if decide (x = p) then 1 else 0) D
               + sum_list_with (λ p, count_of p ps) D)%nat) as ->.
    { clear. induction D as [|y D IHD]; [done|].
      cbn [sum_list_with]. rewrite IHD, count_of_cons. lia. }
    rewrite sum_indicator by (done || apply Hsub; left).
    rewrite IH; [done..|]. intros p Hp. apply Hsub. by right.
Qed.

Lemma sum_count_of_distinct ps :
  sum_list_with (λ p, count_of p ps) (remove_dups ps) = length ps.
Proof.
  apply sum_count_of; [apply NoDup_remove_dups|].
  intros p Hp. by apply elem_of_remove_dups.
Qed.

(** ** The pattern counts of [calculateEntropy] *)

Lemma tally_spec guess answers ps :
  patterns_of guess answers ps →
  ∀ counts, tally guess answers counts = Some (tally_patterns counts ps).
Proof.
  induction 1 as [|answer p answers ps Hp _ IH]; intros counts; [done|].
  cbn [tally]. rewrite Hp. simpl. apply IH.
Qed.

Lemma tally_patterns_lookup ps : ∀ counts p,
  tally_patterns counts ps !! p
  = if decide (count_of p ps = 0%nat) then counts !! p
    else Some (default 0%nat (counts !! p) + count_of p ps)%nat.
Proof.
  induction ps as [|x ps IH]; intros counts p; [done|].
  unfold tally_patterns in *. cbn [foldl]. rewrite IH, count_of_cons.
  destruct (decide (x = p)) as [->|Hne].
  - rewrite lookup_insert_eq. cbn [default].
    unfold Datatypes.id. repeat case_decide; try lia; f_equal; lia.
  - by rewrite lookup_insert_ne by done.
Qed.

Lemma tally_patterns_entries ps :
  map_to_list (tally_patterns ∅ ps)
  ≡ₚ (λ p, (p, count_of p ps)) <$> remove_dups ps.
Proof.
  apply NoDup_Permutation.
  - apply NoDup_map_to_list.
  - apply NoDup_fmap_2; [|apply NoDup_remove_dups]. by intros p q [= ->].
  - intros [p c]. rewrite elem_of_map_to_list, tally_patterns_lookup, lookup_empty.
    rewrite list_elem_of_fmap. split.
    + destruct (decide (count_of p ps = 0%nat)); [done|]. intros [= <-].
      exists p. split; [done|]. apply elem_of_remove_dups, count_of_pos. lia.
    + intros (q & [= -> ->] & Hq). rewrite elem_of_remove_dups in Hq.
      rewrite count_of_pos in Hq. by rewrite decide_False by lia.
Qed.

Lemma answers_fit_patterns guess answers :
  upper_word guess = true → answers_fit guess answers = true →
  ∃ ps, patterns_of guess answers ps.
Proof.
  intros Hg. unfold answers_fit, patterns_of.
  induction answers as [|a answers IH]; intros Hfit; [by exists []|].
  cbn [forallb] in Hfit. apply andb_prop in Hfit as [Ha Hrest].
  apply andb_prop in Ha as [Hup Hlen]. apply Nat.eqb_eq in Hlen.
  destruct (IH Hrest) as [ps Hps].
  destruct (getPattern_inv guess a Hlen Hg Hup) as (r & _ & E & _).
  exists (r :: ps). by constructor.
Qed.

(** ** Sums of reals and the binary logarithm *)

Section entropy_reals.
Local Open Scope R_scope.

Lemma rsum_perm {A} (f : A → R) l k : l ≡ₚ k → rsum f l = rsum f k.
Proof. induction 1; simpl; lra. Qed.

Lemma rsum_fmap {A B} (f : B → R) (g : A → B) l :
  rsum f (g <$> l) = rsum (λ x, f (g x)) l.
Proof. induction l as [|x l IH]; csimpl; [done|]. by rewrite IH. Qed.

Lemma rsum_le {A} (f g : A → R) l :
  (∀ x, x ∈ l → f x <= g x) → rsum f l <= rsum g l.
Proof.
  induction l as [|x l IH]; intros H; simpl; [lra|].
  pose proof (H x (list_elem_of_here _ _)).
  assert (rsum f l <= rsum g l) by (apply IH; intros y Hy; apply H; by right).
  lra.
Qed.

Lemma rsum_eq_iff {A} (f g : A → R) l :
  (∀ x, x ∈ l → f x <= g x) →
  rsum f l = rsum g l ↔ ∀ x, x ∈ l → f x = g x.
Proof.
  induction l as [|x l IH]; intros H; simpl.
  - split; [by intros _ x ?%elem_of_nil|done].
  - pose proof (H x (list_elem_of_here _ _)) as Hx.
    assert (∀ y, y ∈ l → f y <= g y) as Hl by (intros y Hy; apply H; by right).
    pose proof (rsum_le f g l Hl) as Hle. specialize (IH Hl). split.
    + intros Heq y [->|Hy]%elem_of_cons; [lra|]. apply IH; [lra|done].
    + intros Hall. rewrite (Hall x) by left.
      f_equal. apply IH. intros y Hy. apply Hall. by right.
Qed.

Lemma rsum_zero {A} (l : list A) : rsum (λ _, 0) l = 0.
Proof. induction l as [|x l IH]; simpl; lra. Qed.

Lemma rsum_scale_count {A} (f : A → nat) c l :
  rsum (λ x, INR (f x) * c) l = INR (sum_list_with f l) * c.
Proof.
  induction l as [|x l IH]; simpl; [lra|]. rewrite IH, plus_INR. lra.
Qed.

Lemma entropy_of_counts_acc total entries : ∀ acc,
  foldl (λ entropy (pair : word * nat),
           let probability := INR pair.2 / total in
           entropy - probability * log2 probability) acc entries
  = acc + rsum (λ e, entropy_term total e.2) entries.
Proof.
  induction entries as [|e entries IH]; intros acc; simpl; [lra|].
  rewrite IH. unfold entropy_term. lra.
Qed.

Lemma entropy_of_counts_rsum total entries :
  entropy_of_counts total entries = rsum (λ e, entropy_term total e.2) entries.
Proof. unfold entropy_of_counts. rewrite entropy_of_counts_acc. lra. Qed.

Lemma ln2_pos : 0 < ln 2.
Proof. pose proof ln_lt_2. lra. Qed.

Lemma log2_1 : log2 1 = 0.
Proof. unfold log2. rewrite ln_1. lra. Qed.

Lemma log2_increasing x y : 0 < x → x < y → log2 x < log2 y.
Proof.
  intros Hx Hxy. unfold log2. pose proof ln2_pos.
  apply Rmult_lt_compat_r; [by apply Rinv_0_lt_compat|by apply ln_increasing].
Qed.

Lemma log2_div x y : 0 < x → 0 < y → log2 (x / y) = log2 x - log2 y.
Proof.
  intros Hx Hy. unfold log2.
  assert (ln (x / y) = ln x - ln y) as ->.
  { unfold Rdiv. rewrite ln_mult, ln_Rinv by (done || by apply Rinv_0_lt_compat).
    ring. }
  unfold Rdiv. ring.
Qed.

Lemma INR_ge_1 c : (1 ≤ c)%nat → 1 <= INR c.
Proof. intros H. apply le_INR in H. by simpl in H. Qed.

Lemma log2_INR_nonneg c : (1 ≤ c)%nat → 0 <= log2 (INR c).
Proof.
  intros H%INR_ge_1. destruct H as [H|<-]; [|rewrite log2_1; lra].
  rewrite <- log2_1. left. apply log2_increasing; lra.
Qed.

Lemma log2_INR_zero c : (1 ≤ c)%nat → log2 (INR c) = 0 ↔ c = 1%nat.
Proof.
  intros Hc. split; [|intros ->; apply log2_1].
  intros Hz. destruct (decide (c = 1%nat)) as [|Hne]; [done|].
  assert (1 < INR c) as Hlt by (change 1 with (INR 1); apply lt_INR; lia).
  pose proof (log2_increasing 1 (INR c)) as Hinc. rewrite log2_1 in Hinc. lra.
Qed.

(** The term of a pattern seen [c] times among [n] answers. *)
Lemma entropy_term_alt n c :
  (1 ≤ c)%nat → (1 ≤ n)%nat →
  entropy_term (INR n) c = INR c / INR n * (log2 (INR n) - log2 (INR c)).
Proof.
  intros Hc%INR_ge_1 Hn%INR_ge_1. unfold entropy_term.
  rewrite log2_div by lra. lra.
Qed.

Lemma entropy_term_bounds n c :
  (1 ≤ c ≤ n)%nat →
  0 <= entropy_term (INR n) c <= INR c * (log2 (INR n) / INR n).
Proof.
  intros [Hc Hn]. rewrite entropy_term_alt by lia.
  pose proof (INR_ge_1 c Hc) as Hc1. pose proof (INR_ge_1 n ltac:(lia)) as Hn1.
  pose proof (log2_INR_nonneg c Hc) as Hlc.
  assert (log2 (INR c) <= log2 (INR n)) as Hmono.
  { apply le_INR in Hn. destruct Hn as [Hlt| ->]; [|lra].
    left. apply log2_increasing; lra. }
  assert (0 < INR c / INR n) as Hq by (apply Rdiv_lt_0_compat; lra).
  split.
  - apply Rmult_le_pos; lra.
  - replace (INR c * (log2 (INR n) / INR n))
      with (INR c / INR n * log2 (INR n)) by (field; lra).
    apply Rmult_le_compat_l; lra.
Qed.

Lemma entropy_term_zero n c :
  (1 ≤ c ≤ n)%nat → entropy_term (INR n) c = 0 ↔ c = n.
Proof.
  intros [Hc Hn]. rewrite entropy_term_alt by lia.
  pose proof (INR_ge_1 c Hc) as Hc1. pose proof (INR_ge_1 n ltac:(lia)) as Hn1.
  assert (0 < INR c / INR n) as Hq by (apply Rdiv_lt_0_compat; lra).
  split.
  - intros Hz. destruct (decide (c = n)) as [|Hne]; [done|]. exfalso.
    assert (INR c < INR n) as Hlt by (apply lt_INR; lia).
    pose proof (log2_increasing (INR c) (INR n)) as Hinc.
    assert (0 < INR c / INR n * (log2 (INR n) - log2 (INR c)))
      by (apply Rmult_lt_0_compat; lra).
    lra.
  - intros ->. lra.
Qed.

Lemma entropy_term_max n c :
  (1 ≤ c ≤ n)%nat →
  entropy_term (INR n) c = INR c * (log2 (INR n) / INR n) ↔ c = 1%nat.
Proof.
  intros [Hc Hn]. rewrite entropy_term_alt by lia.
  pose proof (INR_ge_1 c Hc) as Hc1. pose proof (INR_ge_1 n ltac:(lia)) as Hn1.
  assert (0 < INR c / INR n) as Hq by (apply Rdiv_lt_0_compat; lra).
  rewrite <- (log2_INR_zero c Hc).
  replace (INR c * (log2 (INR n) / INR n))
    with (INR c / INR n * log2 (INR n)) by (field; lra).
  split.
  - intros Heq. apply Rmult_eq_reg_l in Heq; lra.
  - intros ->. f_equal. lra.
Qed.

(** ** The Shannon entropy of a list of patterns *)

Lemma distinct_count_range ps p :
  p ∈ remove_dups ps → (1 ≤ count_of p ps ≤ length ps)%nat.
Proof.
  rewrite elem_of_remove_dups, count_of_pos. pose proof (count_of_le p ps). lia.
Qed.

Lemma shannon_upper_sum ps :
  ps ≠ [] →
  rsum (λ p, INR (count_of p ps) * (log2 (INR (length ps)) / INR (length ps)))
       (remove_dups ps)
  = log2 (INR (length ps)).
Proof.
  intros Hne. rewrite rsum_scale_count, sum_count_of_distinct.
  assert (1 <= INR (length ps)) by (apply INR_ge_1; destruct ps; simpl; [done|lia]).
  field. lra.
Qed.

Lemma shannon_bounds ps :
  ps ≠ [] → 0 <= shannon ps <= log2 (INR (length ps)).
Proof.
  intros Hne. unfold shannon. split.
  - rewrite <- (rsum_zero (remove_dups ps)). apply rsum_le.
    intros p Hp. by apply entropy_term_bounds, distinct_count_range.
  - rewrite <- (shannon_upper_sum ps Hne). apply rsum_le.
    intros p Hp. by apply entropy_term_bounds, distinct_count_range.
Qed.

Lemma shannon_zero ps :
  ps ≠ [] → shannon ps = 0 ↔ ∀ p q, p ∈ ps → q ∈ ps → p = q.
Proof.
  intros Hne. rewrite <- all_full_iff_all_equal.
  assert (shannon ps = 0
          ↔ rsum (λ _ : word, 0) (remove_dups ps)
            = rsum (λ p, entropy_term (INR (length ps)) (count_of p ps))
                   (remove_dups ps)) as ->.
  { rewrite rsum_zero. unfold shannon. split; intros H; lra. }
  rewrite rsum_eq_iff
    by (intros p Hp; by apply entropy_term_bounds, distinct_count_range).
  split.
  - intros Hall p Hp. apply (entropy_term_zero (length ps));
      [by apply distinct_count_range, elem_of_remove_dups|].
    symmetry. by apply Hall, elem_of_remove_dups.
  - intros Hall p Hp. symmetry. apply entropy_term_zero;
      [by apply distinct_count_range|].
    by apply Hall, elem_of_remove_dups.
Qed.

Lemma shannon_max ps :
  ps ≠ [] → shannon ps = log2 (INR (length ps)) ↔ NoDup ps.
Proof.
  intros Hne. rewrite <- all_once_iff_NoDup.
  rewrite <- (shannon_upper_sum ps Hne) at 1. unfold shannon.
  rewrite rsum_eq_iff
    by (intros p Hp; by apply entropy_term_bounds, distinct_count_range).
  split.
  - intros Hall p Hp. apply (entropy_term_max (length ps));
      [by apply distinct_count_range, elem_of_remove_dups|].
    by apply Hall, elem_of_remove_dups.
  - intros Hall p Hp. apply entropy_term_max;
      [by apply distinct_count_range|].
    by apply Hall, elem_of_remove_dups.
Qed.

End entropy_reals.

(** ** [calculateEntropy] computes the Shannon entropy *)

Lemma calculateEntropy_small calc guessWord :
  (length (possibleAnswers calc) ≤ 1)%nat →
  calculateEntropy calc guessWord = Some 0%R.
Proof. intros H. unfold calculateEntropy. by rewrite decide_True. Qed.

Lemma calculateEntropy_shannon calc guessWord ps :
  patterns_of (upcase guessWord) (possibleAnswers calc) ps →
  (2 ≤ length (possibleAnswers calc))%nat →
  calculateEntropy calc guessWord = Some (shannon ps).
Proof.
  intros Hps HN. unfold calculateEntropy. rewrite decide_False by lia.
  cbv zeta. rewrite (tally_spec _ _ _ Hps). cbn [mbind option_bind]. f_equal.
  rewrite entropy_of_counts_rsum.
  rewrite (rsum_perm _ _ _ (tally_patterns_entries ps)), rsum_fmap.
  unfold shannon. cbn [snd]. by rewrite (Forall2_length _ _ _ Hps).
Qed.

Lemma calculateEntropy_returns calc guessWord :
  upper_word (upcase guessWord) = true →
  answers_fit (upcase guessWord) (possibleAnswers calc) = true →
  ∃ h ps, calculateEntropy calc guessWord = Some h ∧
          patterns_of (upcase guessWord) (possibleAnswers calc) ps ∧
          ((length (possibleAnswers calc) ≤ 1)%nat → h = 0%R) ∧
          ((2 ≤ length (possibleAnswers calc))%nat → h = shannon ps).
Proof.
  intros Hg Hfit. destruct (answers_fit_patterns _ _ Hg Hfit) as [ps Hps].
  destruct (decide (length (possibleAnswers calc) ≤ 1)%nat) as [Hsmall|Hbig].
  - exists 0%R, ps. split; [by apply calculateEntropy_small|].
    split; [done|]. split; [done|lia].
  - exists (shannon ps), ps. split; [apply calculateEntropy_shannon; [done|lia]|].
    split; [done|]. split; [lia|done].
Qed.

(** ** Claim C2 *)

(** C2, as the code has it. For an alphabetic guess and upper-case answers
    of its length, [calculateEntropy] returns a value [h]. With [N] the
    number of answers: [h] is 0 when [N <= 1]; when [N >= 2], [h] is the sum
    of [-(count(p)/N) * log2(count(p)/N)] over the distinct patterns [p],
    [0 <= h <= log2 N], [h] is 0 exactly when all answers induce the same
    pattern, and [h] is [log2 N] exactly when every answer induces a
    distinct pattern. *)
Theorem calculateEntropy_bounds calc guessWord :
  upper_word (upcase guessWord) = true →
  answers_fit (upcase guessWord) (possibleAnswers calc) = true →
  ∃ h ps, calculateEntropy calc guessWord = Some h ∧
          patterns_of (upcase guessWord) (possibleAnswers calc) ps ∧
          ((length (possibleAnswers calc) ≤ 1)%nat → h = 0%R) ∧
          ((2 ≤ length (possibleAnswers calc))%nat →
             h = shannon ps ∧
             (0 <= h <= log2 (INR (length (possibleAnswers calc))))%R ∧
             (h = 0%R ↔ ∀ p q, p ∈ ps → q ∈ ps → p = q) ∧
             (h = log2 (INR (length (possibleAnswers calc))) ↔ NoDup ps)).
Proof.
  intros Hg Hfit.
  destruct (calculateEntropy_returns calc guessWord Hg Hfit)
    as (h & ps & E & Hps & Hsmall & Hbig).
  exists h, ps. split; [done|]. split; [done|]. split; [done|].
  intros HN. specialize (Hbig HN). subst h.
  pose proof (Forall2_length _ _ _ Hps) as Hlen.
  assert (ps ≠ []) as Hne by (intros ->; simpl in Hlen; lia).
  rewrite Hlen. split; [done|]. split; [by apply shannon_bounds|].
  split; [by apply shannon_zero|by apply shannon_max].
Qed.

Lemma calculateEntropy_bounds_witness :
  let calc := {| allWords := [];
                 possibleAnswers := [str "CRANE"; str "SLATE"; str "TRACE"] |} in
  ∃ h ps, calculateEntropy calc (str "crane") = Some h ∧
          patterns_of (upcase (str "crane")) (possibleAnswers calc) ps ∧
          ((length (possibleAnswers calc) ≤ 1)%nat → h = 0%R) ∧
          ((2 ≤ length (possibleAnswers calc))%nat →
             h = shannon ps ∧
             (0 <= h <= log2 (INR (length (possibleAnswers calc))))%R ∧
             (h = 0%R ↔ ∀ p q, p ∈ ps → q ∈ ps → p = q) ∧
             (h = log2 (INR (length (possibleAnswers calc))) ↔ NoDup ps)).
Proof.
  apply (calculateEntropy_bounds
           {| allWords := [];
              possibleAnswers := [str "CRANE"; str "SLATE"; str "TRACE"] |}
           (str "crane")); reflexivity.
Defined.

(** Two answers, one pattern: the entropy is 0 although [N = 2]. *)
Lemma calculateEntropy_zero_with_two_answers :
  let calc := {| allWords := [];
                 possibleAnswers := [str "CRANE"; str "SLATE"] |} in
  ¬ (length (possibleAnswers calc) ≤ 1)%nat ∧
  calculateEntropy calc (str "ZZZZZ") = Some 0%R.
Proof.
  cbv zeta. split; [simpl; lia|].
  rewrite (calculateEntropy_shannon _ _ [str "BBBBB"; str "BBBBB"]).
  - f_equal. apply shannon_zero; [done|].
    intros p q Hp Hq.
    apply elem_of_cons in Hp as [->|Hp]; [|apply list_elem_of_singleton in Hp as ->];
    (apply elem_of_cons in Hq as [->|Hq]; [|apply list_elem_of_singleton in Hq as ->]);
    done.
  - repeat constructor.
  - simpl. lia.
Qed.

(** ** Sorting by entropy *)

Lemma sorted_by_nil {A} (comp : A → A → Prop) : sorted_by comp [].
Proof. intros i j a b _ Ha. by rewrite lookup_nil in Ha. Qed.

Lemma sorted_by_cons {A} (comp : A → A → Prop) x l :
  sorted_by comp (x :: l) ↔ (∀ y, y ∈ l → ¬ comp y x) ∧ sorted_by comp l.
Proof.
  split.
  - intros H. split.
    + intros y [k Hk]%list_elem_of_lookup. apply (H 0%nat (S k)); [lia|done..].
    + intros i j a b Hij Ha Hb. apply (H (S i) (S j)); [lia|done..].
  - intros [Hx Hl] i j a b Hij Ha Hb. destruct j as [|j]; [lia|].
    destruct i as [|i]; simpl in Ha, Hb.
    + injection Ha as <-. apply Hx. apply list_elem_of_lookup. by exists j.
    + apply (Hl i j); [lia|done..].
Qed.

Lemma sorted_insert (x : R * word) l :
  sorted_by by_entropy_desc l →
  ∃ l', l' ≡ₚ x :: l ∧ sorted_by by_entropy_desc l'.
Proof.
  induction l as [|y l IH]; intros Hs.
  - exists [x]. split; [done|]. apply sorted_by_cons. split.
    + by intros y ?%elem_of_nil.
    + apply sorted_by_nil.
  - apply sorted_by_cons in Hs as [Hy Hl].
    destruct (Rle_dec y.1 x.1) as [Hle|Hgt].
    + exists (x :: y :: l). split; [done|].
      apply sorted_by_cons. split; [|by apply sorted_by_cons].
      intros z [->|Hz]%elem_of_cons; unfold by_entropy_desc in *; [lra|].
      specialize (Hy z Hz). lra.
    + destruct (IH Hl) as (l' & Hperm & Hs').
      exists (y :: l'). split; [rewrite Hperm; apply Permutation_swap|].
      apply sorted_by_cons. split; [|done].
      intros z Hz. rewrite Hperm in Hz.
      apply elem_of_cons in Hz as [->|Hz]; unfold by_entropy_desc in *; [lra|].
      by apply Hy.
Qed.

(** [std::sort] has a result on every input. *)
Lemma std_sort_exists (l : list (R * word)) :
  ∃ l', std_sort by_entropy_desc l l'.
Proof.
  induction l as [|x l (l' & Hperm & Hs)].
  - exists []. split; [done|apply sorted_by_nil].
  - destruct (sorted_insert x l' Hs) as (l'' & Hperm' & Hs').
    exists l''. split; [|done]. by rewrite Hperm', Hperm.
Qed.

Lemma entropy_pairs_spec calc words : ∀ pairs,
  entropy_pairs calc words = Some pairs →
  pairs.*2 = words ∧
  ∀ pr, pr ∈ pairs → calculateEntropy calc pr.2 = Some pr.1.
Proof.
  induction words as [|w words IH]; intros pairs E.
  - injection E as <-. split; [done|]. by intros pr ?%elem_of_nil.
  - cbn [entropy_pairs] in E.
    destruct (calculateEntropy calc w) as [e|] eqn:Ee; [|done].
    destruct (entropy_pairs calc words) as [rest|] eqn:Er; [|done].
    injection E as <-. destruct (IH rest eq_refl) as [Hw Hall].
    split; [by rewrite fmap_cons, Hw|].
    intros pr [->|Hpr]%elem_of_cons; [done|by apply Hall].
Qed.

Lemma entropy_pairs_returns calc words :
  (∀ w, w ∈ words → is_Some (calculateEntropy calc w)) →
  is_Some (entropy_pairs calc words).
Proof.
  induction words as [|w words IH]; intros H; [done|].
  cbn [entropy_pairs]. destruct (H w) as [e ->]; [left|].
  destruct IH as [rest ->]; [intros w' Hw'; apply H; by right|]. done.
Qed.

Lemma calculator_fit_returns calc w :
  calculator_fit calc = true → w ∈ allWords calc →
  is_Some (calculateEntropy calc w).
Proof.
  unfold calculator_fit. rewrite forallb_forall. intros H Hw.
  apply list_elem_of_In in Hw. specialize (H w Hw).
  apply andb_prop in H as [Hup Hfit].
  destruct (calculateEntropy_returns calc w Hup Hfit) as (h & _ & -> & _). done.
Qed.

(** ** Claim C4 *)

(** C4, as the code has it. For a dictionary of alphabetic words of the
    length of the upper-case answers, [calculateAllEntropies] has a result.
    Every result is empty when there are no possible answers; otherwise it
    has the length of the dictionary, holds the dictionary words (each as
    often as the dictionary does) with their entropies, and its entropies
    never increase along the sequence. Nothing orders words of equal
    entropy. *)
Theorem calculateAllEntropies_sorted calc :
  calculator_fit calc = true →
  (∃ rs, calculateAllEntropies calc rs) ∧
  ∀ rs, calculateAllEntropies calc rs →
    (possibleAnswers calc = [] → rs = []) ∧
    (possibleAnswers calc ≠ [] →
       length rs = length (allWords calc) ∧
       res_word <$> rs ≡ₚ allWords calc ∧
       (∀ r, r ∈ rs → calculateEntropy calc (res_word r) = Some (res_entropy r)) ∧
       (∀ i j a b, (i < j)%nat → rs !! i = Some a → rs !! j = Some b →
                   (res_entropy b <= res_entropy a)%R)).
Proof.
  intros Hfit. split.
  - destruct (decide (possibleAnswers calc = [])) as [Hnone|Hsome].
    + exists []. by constructor.
    + destruct (entropy_pairs_returns calc (allWords calc)) as [pairs Hpairs].
      { intros w Hw. by apply calculator_fit_returns. }
      destruct (std_sort_exists pairs) as [sorted Hsorted].
      exists (to_result <$> sorted). by econstructor.
  - intros rs Hrs. destruct Hrs as [Hnone|pairs sorted Hsome Hpairs [Hperm Hs]].
    + split; [done|]. intros ?. done.
    + split; [done|]. intros _.
      destruct (entropy_pairs_spec _ _ _ Hpairs) as [Hwords Hent].
      split; [|split; [|split]].
      * rewrite length_fmap, Hperm, <- Hwords. by rewrite length_fmap.
      * rewrite <- list_fmap_compose, <- Hwords.
        by apply fmap_Permutation.
      * intros r (pr & -> & Hpr)%list_elem_of_fmap. cbn [to_result res_word res_entropy].
        apply Hent. by rewrite <- Hperm.
      * intros i j a b Hij Ha Hb.
        rewrite list_lookup_fmap in Ha, Hb.
        destruct (sorted !! i) as [pa|] eqn:Hpa; [|done].
        destruct (sorted !! j) as [pb|] eqn:Hpb; [|done].
        injection Ha as <-. injection Hb as <-. cbn [to_result res_entropy].
        pose proof (Hs i j pa pb Hij Hpa Hpb) as Hc.
        unfold by_entropy_desc in Hc. lra.
Qed.

Lemma calculateAllEntropies_sorted_witness :
  let calc := {| allWords := [str "CRANE"; str "SLATE"];
                 possibleAnswers := [str "CRANE"; str "SLATE"; str "TRACE"] |} in
  (∃ rs, calculateAllEntropies calc rs) ∧
  ∀ rs, calculateAllEntropies calc rs →
    (possibleAnswers calc = [] → rs = []) ∧
    (possibleAnswers calc ≠ [] →
       length rs = length (allWords calc) ∧
       res_word <$> rs ≡ₚ allWords calc ∧
       (∀ r, r ∈ rs → calculateEntropy calc (res_word r) = Some (res_entropy r)) ∧
       (∀ i j a b, (i < j)%nat → rs !! i = Some a → rs !! j = Some b →
                   (res_entropy b <= res_entropy a)%R)).
Proof.
  apply (calculateAllEntropies_sorted
           {| allWords := [str "CRANE"; str "SLATE"];
              possibleAnswers := [str "CRANE"; str "SLATE"; str "TRACE"] |});
    reflexivity.
Defined.

(** No possible answers: the result is empty whatever the dictionary.
    One possible answer: every entropy is 0, and the dictionary order
    B, A is a result of the sort. *)
Lemma calculateAllEntropies_length_and_ties :
  (let calc := {| allWords := [str "CRANE"]; possibleAnswers := [] |} in
   calculateAllEntropies calc [] ∧
   ∀ rs, calculateAllEntropies calc rs → length rs ≠ length (allWords calc)) ∧
  (let calc := {| allWords := [str "B"; str "A"]; possibleAnswers := [str "A"] |} in
   ∃ rs, calculateAllEntropies calc rs ∧
         res_word <$> rs = [str "B"; str "A"] ∧
         res_entropy <$> rs = [0%R; 0%R]).
Proof.
  split; cbv zeta.
  - split; [by constructor|].
    intros rs Hrs. destruct Hrs as [_|pairs sorted Hsome _ _]; [done|].
    by destruct Hsome.
  - exists (to_result <$> [(0%R, str "B"); (0%R, str "A")]).
    split; [|done].
    apply (ranking_sorted _ [(0%R, str "B"); (0%R, str "A")]); [done|done|].
    split; [done|].
    intros i j a b Hij Ha Hb.
    assert (a.1 = 0%R ∧ b.1 = 0%R) as [Ha0 Hb0].
    { split.
      - destruct i as [|[|i]]; simpl in Ha; by simplify_eq.
      - destruct j as [|[|j]]; simpl in Hb; by simplify_eq. }
    unfold by_entropy_desc. lra.
Qed.

(** * Further properties *)

(** ** The filter as a conjunction of checks *)

Lemma all_ok_true {A} (check : A → option bool) l :
  all_ok check l = Some true ↔ ∀ x, x ∈ l → check x = Some true.
Proof.
  induction l as [|x l IH]; cbn [all_ok].
  - split; [by intros _ x ?%elem_of_nil|done].
  - destruct (check x) as [[]|] eqn:E; simpl.
    + rewrite IH. split.
      * intros H y [->|Hy]%elem_of_cons; [done|by apply H].
      * intros H y Hy. apply H. by right.
    + split; [done|]. intros H. specialize (H x (list_elem_of_here _ _)). congruence.
    + split; [done|]. intros H. specialize (H x (list_elem_of_here _ _)). congruence.
Qed.

Lemma word_valid_true kp ys gs w :
  word_valid kp ys gs w = Some true
  ↔ green_check kp w = Some true ∧ yellow_check ys w = Some true
    ∧ gray_check gs w = Some true.
Proof.
  unfold word_valid.
  destruct (green_check kp w) as [[]|]; simpl; [|intuition congruence..].
  destruct (yellow_check ys w) as [[]|]; simpl; intuition congruence.
Qed.

Lemma filter_filter_and {A} (P Q : A → Prop) `{∀ x, Decision (P x)}
    `{∀ x, Decision (Q x)} (l : list A) :
  filter Q (filter P l) = filter (λ x, P x ∧ Q x) l.
Proof.
  induction l as [|x l IH]; [done|].
  rewrite !filter_cons. destruct (decide (P x)) as [Hp|Hp].
  - rewrite filter_cons, IH. destruct (decide (Q x)).
    + by rewrite decide_True.
    + by rewrite decide_False by tauto.
  - rewrite IH. by rewrite decide_False by tauto.
Qed.

Lemma filter_core_twice words kp1 ys1 gs1 kp2 ys2 gs2 :
  (out ← filter_core words kp1 ys1 gs1; filter_core out kp2 ys2 gs2)
  = Some (filter (λ w, word_valid kp1 ys1 gs1 w = Some true
                       ∧ word_valid kp2 ys2 gs2 w = Some true) words).
Proof.
  rewrite filter_core_spec. cbn [mbind option_bind]. rewrite filter_core_spec.
  f_equal. apply filter_filter_and.
Qed.

Lemma filter_keeps_all {A} (P : A → Prop) `{∀ x, Decision (P x)} (l : list A) :
  (∀ x, x ∈ l → P x) → filter P l = l.
Proof.
  induction l as [|x l IH]; intros Hl; [done|].
  rewrite filter_cons, decide_True by (apply Hl; left).
  f_equal. apply IH. intros y Hy. apply Hl. by right.
Qed.

Lemma filter_keeps_none {A} (P : A → Prop) `{∀ x, Decision (P x)} (l : list A) :
  (∀ x, x ∈ l → ¬ P x) → filter P l = [].
Proof.
  induction l as [|x l IH]; intros Hl; [done|].
  rewrite filter_cons, decide_False by (apply Hl; left).
  apply IH. intros y Hy. apply Hl. by right.
Qed.

(** ** Composition of filters *)

(** Filtering by one set of constraints and then by another gives the same
    list as filtering in the opposite order. *)
Theorem filter_core_commutes words kp1 ys1 gs1 kp2 ys2 gs2 :
  (out ← filter_core words kp1 ys1 gs1; filter_core out kp2 ys2 gs2)
  = (out ← filter_core words kp2 ys2 gs2; filter_core out kp1 ys1 gs1).
Proof.
  rewrite !filter_core_twice. f_equal. apply filter_ext_in. tauto.
Qed.

(** For one green list, the filter under accumulated yellow and gray
    constraints is the filter of the first round followed by the filter
    of the second round. *)
Theorem filter_core_accumulates words kp ys1 ys2 gs1 gs2 :
  filter_core words kp (ys1 ++ ys2) (gs1 ++ gs2)
  = (out ← filter_core words kp ys1 gs1; filter_core out kp ys2 gs2).
Proof.
  rewrite filter_core_twice, filter_core_spec. f_equal. apply filter_ext_in.
  intros w _. rewrite !word_valid_true. unfold yellow_check, gray_check.
  rewrite !all_ok_true. setoid_rewrite elem_of_app. split.
  - intros (Hg & Hy & Hgr). repeat split; auto.
  - intros [(Hg & Hy1 & Hgr1) (_ & Hy2 & Hgr2)]. repeat split; [done|..].
    + intros y [?|?]; auto.
    + intros g [?|?]; auto.
Qed.

(** The order in which the yellow and the gray constraints are listed
    does not matter. *)
Theorem filter_core_constraint_order words kp ys ys' gs gs' :
  ys ≡ₚ ys' → gs ≡ₚ gs' →
  filter_core words kp ys gs = filter_core words kp ys' gs'.
Proof.
  intros Hys Hgs. rewrite !filter_core_spec. f_equal. apply filter_ext_in.
  intros w _. rewrite !word_valid_true. unfold yellow_check, gray_check.
  rewrite !all_ok_true. setoid_rewrite Hys. setoid_rewrite Hgs. done.
Qed.

Lemma filter_core_constraint_order_witness :
  filter_core [str "CRANE"; str "TRACE"] [] [("C"%char, [0]); ("E"%char, [1])]
              [str "S"; str "L"]
  = filter_core [str "CRANE"; str "TRACE"] [] [("E"%char, [1]); ("C"%char, [0])]
                [str "L"; str "S"].
Proof.
  apply (filter_core_constraint_order [str "CRANE"; str "TRACE"] []
           [("C"%char, [0]); ("E"%char, [1])] [("E"%char, [1]); ("C"%char, [0])]
           [str "S"; str "L"] [str "L"; str "S"]); apply Permutation_swap.
Defined.

(** ** Constraints that constrain nothing, and constraints that exclude
    everything *)

(** Empty strings in the green and gray lists are placeholders: with no
    yellow constraint and nothing but empty green and gray entries, every
    word is kept. *)
Theorem filter_core_placeholders_keep_all words kp gs :
  Forall (λ k, k = []) kp → Forall (λ g, g = []) gs →
  filter_core words kp [] gs = Some words.
Proof.
  intros Hkp Hgs. rewrite filter_core_spec. f_equal.
  apply filter_keeps_all. intros w _. apply word_valid_true.
  split; [|split].
  -
 destruct (green_check_spec kp w) as (b & E & Hb). rewrite E. f_equal.
    apply Hb. intros i c x Hreq _. unfold green_required in Hreq.
    destruct (kp !! i) as [known|] eqn:Hk; [|done].
    rewrite Forall_forall in Hkp.
    rewrite (Hkp known) in Hreq; [done|]. by eapply list_elem_of_lookup_2.
  - done.
  - apply all_ok_true. intros g Hg. rewrite Forall_forall in Hgs.
    by rewrite (Hgs g Hg).
Qed.

Lemma filter_core_placeholders_keep_all_witness :
  filter_core [str "CRANE"; str "AB"] [str ""; str ""] [] [str ""]
  = Some [str "CRANE"; str "AB"].
Proof.
  apply (filter_core_placeholders_keep_all [str "CRANE"; str "AB"]
           [str ""; str ""] [str ""]); repeat constructor.
Defined.

(** A letter that is both yellow and gray excludes every word. *)
Theorem filter_core_yellow_and_gray_excludes_all words kp ys gs y g :
  y ∈ ys → g ∈ gs → head g = Some y.1 →
  filter_core words kp ys gs = Some [].
Proof.
  intros Hy Hg Hhead. rewrite filter_core_spec. f_equal.
  apply filter_keeps_none. intros w _. rewrite word_valid_true.
  intros (_ & Hyellow & Hgray).
  unfold yellow_check in Hyellow. rewrite all_ok_true in Hyellow.
  unfold gray_check in Hgray. rewrite all_ok_true in Hgray.
  specialize (Hyellow y Hy). specialize (Hgray g Hg).
  unfold yellow_item_ok in Hyellow.
  destruct (find_char w y.1) as [k|] eqn:Hfind; [|done].
  destruct (gray_item_ok_spec w g) as (b & E & Hb).
  rewrite E in Hgray. injection Hgray as ->.
  assert (y.1 ∉ w) as Hnot by (by apply Hb).
  apply find_char_None in Hnot. congruence.
Qed.

Lemma filter_core_yellow_and_gray_excludes_all_witness :
  filter_core [str "CRANE"; str "SLATE"] [] [("A"%char, [0])] [str "A"] = Some [].
Proof.
  apply (filter_core_yellow_and_gray_excludes_all [str "CRANE"; str "SLATE"] []
           [("A"%char, [0])] [str "A"] ("A"%char, [0]) (str "A"));
    [apply list_elem_of_here | apply list_elem_of_here | reflexivity].
Defined.

(** ** Letter case in [filterWords] *)

Lemma toupper_not_lower c : is_lower (toupper c) = false.
Proof. by destruct c as [[] [] [] [] [] [] [] []]. Qed.

Lemma yellow_of_upcase_item item :
  yellow_of_item (upcase_item item) = yellow_of_item item.
Proof.
  unfold yellow_of_item, upcase_item. cbn [letter excludedPositions]. f_equal.
  destruct (letter item) as [|c rest]; [done|].
  change (toupper (toupper c) = toupper c). apply toupper_idemp.
Qed.

(** [filterWords] reads its words, green entries, yellow letters and gray
    letters without regard to case: upper-casing any of them beforehand
    changes nothing. *)
Theorem filterWords_case_insensitive wordsJS knownPositionsJS yellowLettersJS
    grayLettersJS :
  filterWords (upcase <$> wordsJS) (upcase <$> knownPositionsJS)
              (upcase_item <$> yellowLettersJS) (upcase <$> grayLettersJS)
  = filterWords wordsJS knownPositionsJS yellowLettersJS grayLettersJS.
Proof.
  unfold filterWords. rewrite <- !list_fmap_compose. f_equal.
  - apply list_fmap_ext. intros _ x _. apply upcase_idemp.
  - apply list_fmap_ext. intros _ x _. apply upcase_idemp.
  - apply list_fmap_ext. intros _ x _. apply yellow_of_upcase_item.
  - apply list_fmap_ext. intros _ x _. apply upcase_idemp.
Qed.

(** The words [filterWords] returns are taken, in order, from the
    upper-cased input, and hold no lower-case letter. *)
Theorem filterWords_returns_upcased_words wordsJS knownPositionsJS
    yellowLettersJS grayLettersJS :
  ∃ out, filterWords wordsJS knownPositionsJS yellowLettersJS grayLettersJS
         = Some out ∧
         out `sublist_of` (upcase <$> wordsJS) ∧
         ∀ w c, w ∈ out → c ∈ w → is_lower c = false.
Proof.
  unfold filterWords. eexists. split; [apply filter_core_spec|].
  split; [apply sublist_filter|].
  intros w c [_ Hw]%list_elem_of_filter Hc.
  apply list_elem_of_fmap in Hw as (w0 & -> & _).
  apply list_elem_of_fmap in Hc as (c0 & -> & _).
  apply toupper_not_lower.
Qed.

(** ** More on the marks of [getPattern] *)

Lemma occ_pos c s : (0 < occ c s)%nat → c ∈ s.
Proof.
  induction s as [|x s IH]; [unfold occ; simpl; lia|].
  rewrite occ_cons. destruct (decide (x = c)) as [->|]; [intros; left|].
  intros H. right. apply IH. lia.
Qed.

Lemma occ_take_S s k x c :
  s !! k = Some x →
  occ c (take (S k) s) = (occ c (take k s) + (if decide (x = c) then 1 else 0))%nat.
Proof.
  intros Hx. rewrite (take_S_r _ _ _ Hx). unfold occ.
  rewrite filter_app, length_app, filter_cons, filter_nil.
  by destruct (decide (x = c)).
Qed.

Lemma yellow_inv_all_exact guess target r freq :
  length guess = length target →
  yellow_inv guess target (length guess) (r, freq) →
  r = replicate (length guess) chr_G ↔ guess = target.
Proof.
  intros Hsame Hinv. pose proof Hinv as (Hlen & _). cbn [fst] in Hlen.
  split.
  - intros Hr. apply list_eq. intros i.
    destruct (guess !! i) as [g|] eqn:Hgi.
    + destruct (lookup_lt_is_Some_2 target i) as [t Hti].
      { apply lookup_lt_Some in Hgi. lia. }
      destruct (yellow_inv_marks _ _ _ _ _ _ _ Hinv Hgi Hti) as (HG & _).
      rewrite Hti. f_equal. apply HG. rewrite Hr.
      apply lookup_replicate_2. by eapply lookup_lt_Some.
    + symmetry. apply lookup_ge_None. apply lookup_ge_None in Hgi. lia.
  - intros <-. apply list_eq. intros i.
    destruct (guess !! i) as [g|] eqn:Hgi.
    + destruct (yellow_inv_marks _ _ _ _ _ _ _ Hinv Hgi Hgi) as (HG & _).
      rewrite lookup_replicate_2 by (by eapply lookup_lt_Some). by apply HG.
    + apply lookup_ge_None in Hgi.
      rewrite (lookup_ge_None_2 r) by lia.
      symmetry. apply lookup_replicate_None. lia.
Qed.

Lemma yellow_inv_is_mark guess target r freq :
  length guess = length target →
  yellow_inv guess target (length guess) (r, freq) → Forall is_mark r.
Proof.
  intros Hsame (Hlen & Hres & _). cbn [fst] in Hlen, Hres.
  apply Forall_lookup. intros i m Hm.
  destruct (lookup_lt_is_Some_2 guess i) as [g Hgi].
  { apply lookup_lt_Some in Hm. lia. }
  destruct (lookup_lt_is_Some_2 target i) as [t Hti].
  { apply lookup_lt_Some in Hm. lia. }
  rewrite (Hres _ _ _ Hgi Hti) in Hm. injection Hm as <-.
  unfold is_mark. repeat case_decide; tauto.
Qed.

(** Identical words give the all-G pattern, and only they do. *)
Theorem getPattern_all_exact_iff guess target :
  length guess = length target →
  upper_word guess = true → upper_word target = true →
  ∃ r, getPattern guess target = Some r ∧
       (r = replicate (length guess) chr_G ↔ guess = target).
Proof.
  intros Hsame Hg Ht.
  destruct (getPattern_inv guess target Hsame Hg Ht) as (r & freq & E & Hinv).
  exists r. split; [done|]. exact (yellow_inv_all_exact _ _ _ _ Hsame Hinv).
Qed.

Lemma getPattern_all_exact_iff_witness :
  ∃ r, getPattern (str "CRANE") (str "CRANE") = Some r ∧
       (r = replicate (length (str "CRANE")) chr_G ↔ str "CRANE" = str "CRANE").
Proof.
  apply (getPattern_all_exact_iff (str "CRANE") (str "CRANE")); reflexivity.
Defined.

(** Every character of the pattern is G, Y or B; a guess letter that the
    target does not contain is marked B, and a letter marked Y occurs in
    the target, at another position. *)
Theorem getPattern_marks_and_absent_letters guess target :
  length guess = length target →
  upper_word guess = true → upper_word target = true →
  ∃ r, getPattern guess target = Some r ∧
       Forall is_mark r ∧
       ∀ i g t, guess !! i = Some g → target !! i = Some t →
         (g ∉ target → r !! i = Some chr_B) ∧
         (r !! i = Some chr_Y → g ≠ t ∧ g ∈ target).
Proof.
  intros Hsame Hg Ht.
  destruct (getPattern_inv guess target Hsame Hg Ht) as (r & freq & E & Hinv).
  exists r. split; [done|]. pose proof Hinv as (Hlen & Hres & _).
  cbn [fst] in Hlen, Hres.
  assert (∀ i g t, guess !! i = Some g → target !! i = Some t →
            r !! i = Some chr_Y → g ≠ t ∧ g ∈ target) as HY.
  { intros i g t Hgi Hti Hr.
    destruct (yellow_inv_marks _ _ _ _ _ _ _ Hinv Hgi Hti) as (_ & HY & _).
    apply HY in Hr as [Hne Hpos]. split; [done|].
    apply occ_pos. unfold remaining in Hpos. lia. }
  split; [|intros i g t Hgi Hti; split; [|by apply HY]].
  - exact (yellow_inv_is_mark _ _ _ _ Hsame Hinv).
  - intros Hnot. pose proof (Hres _ _ _ Hgi Hti) as Hr.
    destruct (decide (g = t)) as [->|Hne].
    { exfalso. apply Hnot. by eapply list_elem_of_lookup_2. }
    destruct (decide ((i < length guess)%nat
                      ∧ 0 < remaining guess target r i g)) as [[_ Hpos]|_]; [|done].
    exfalso. apply Hnot, occ_pos. unfold remaining in Hpos. lia.
Qed.

Lemma getPattern_marks_and_absent_letters_witness :
  ∃ r, getPattern (str "SPEED") (str "ERASE") = Some r ∧
       Forall is_mark r ∧
       ∀ i g t, str "SPEED" !! i = Some g → str "ERASE" !! i = Some t →
         (g ∉ str "ERASE" → r !! i = Some chr_B) ∧
         (r !! i = Some chr_Y → g ≠ t ∧ g ∈ str "ERASE").
Proof.
  apply (getPattern_marks_and_absent_letters (str "SPEED") (str "ERASE"));
    reflexivity.
Defined.

(** ** Duplicate letters: how many occurrences get a colour *)

Section colored_letters.
Variables guess target r : word.
Variable freq : list Z.
Variable c : ascii.
Hypothesis same_length : length guess = length target.
Hypothesis final : yellow_inv guess target (length guess) (r, freq).

Lemma mark_at i g t :
  guess !! i = Some g → target !! i = Some t →
  r !! i = Some (if decide (g = t) then chr_G
                 else if decide (0 < remaining guess target r i g)
                      then chr_Y else chr_B).
Proof.
  intros Hg Ht.
  destruct (yellow_inv_marks _ _ _ _ _ _ _ final Hg Ht) as (HG & HY & HB).
  destruct (decide (g = t)); [by apply HG|].
  destruct (decide (0 < remaining guess target r i g)); [by apply HY|].
  apply HB. split; [done|lia].
Qed.

Lemma colored_prefix i :
  (i ≤ length guess)%nat →
  (exact_count (take i guess) (take i target) c ≤ occ c (take i guess))%nat ∧
  present_before r guess i c
  = ((occ c (take i guess) - exact_count (take i guess) (take i target) c)
     `min` (occ c target - exact_count guess target c))%nat ∧
  length (filter (λ p, p.1 ≠ chr_B ∧ p.2 = c) (zip (take i r) (take i guess)))
  = (exact_count (take i guess) (take i target) c + present_before r guess i c)%nat.
Proof.
  induction i as [|i IH]; intros Hi.
  - rewrite present_before_0. unfold exact_count, occ. simpl. lia.
  - destruct IH as (IH1 & IH2 & IH3); [lia|].
    destruct (lookup_lt_is_Some_2 guess i) as [g Hg]; [lia|].
    destruct (lookup_lt_is_Some_2 target i) as [t Ht]; [lia|].
    pose proof (mark_at i g t Hg Ht) as Hm.
    rewrite (occ_take_S _ _ _ c Hg), (exact_count_take_S _ _ _ _ _ c Hg Ht).
    rewrite (present_before_S _ _ _ _ _ c Hm Hg).
    rewrite (count_zip_take_S (λ p, p.1 ≠ chr_B ∧ p.2 = c) _ _ _ _ _ Hm Hg).
    cbn [fst snd].
    pose proof (exact_count_le_occ guess target c) as Hle.
    pose proof chr_G_ne_B. pose proof chr_Y_ne_B. pose proof chr_G_ne_Y.
    destruct (decide (g = c)) as [->|Hgc].
    + destruct (decide (c = t)) as [<-|Hct].
      * rewrite (decide_True (P := c = c ∧ c = c)) by done.
        rewrite (decide_False (P := chr_G = chr_Y ∧ _)) by tauto.
        rewrite (decide_True (P := chr_G ≠ chr_B ∧ _)) by done. lia.
      * rewrite (decide_False (P := c = c ∧ t = c)) by (intros [_ ?]; congruence).
        unfold remaining in *.
        destruct (decide (0 < Z.of_nat (occ c target)
                              - Z.of_nat (exact_count guess target c)
                              - Z.of_nat (present_before r guess i c))).
        -- rewrite (decide_True (P := chr_Y = chr_Y ∧ _)) by done.
           rewrite (decide_True (P := chr_Y ≠ chr_B ∧ _)) by done. lia.
        -- rewrite (decide_False (P := chr_B = chr_Y ∧ _)) by (intros [? _]; congruence).
           rewrite (decide_False (P := chr_B ≠ chr_B ∧ _)) by tauto. lia.
    + rewrite !(decide_False (P := _ ∧ g = c)) by tauto.
      rewrite (decide_False (P := g = c ∧ _)) by tauto. lia.
Qed.

Lemma colored_total :
  colored_count r guess c = (occ c guess `min` occ c target)%nat.
Proof.
  destruct (colored_prefix (length guess)) as (H1 & H2 & H3); [done|].
  destruct final as (Hlen & _). cbn [fst] in Hlen.
  repeat rewrite take_ge in H1 by lia. repeat rewrite take_ge in H2 by lia.
  repeat rewrite take_ge in H3 by lia.
  unfold colored_count. rewrite H3, H2.
  pose proof (exact_count_le_occ guess target c). lia.
Qed.

End colored_letters.

(** Of the occurrences of a letter in the guess, exactly as many are marked
    G or Y as the target can account for: the smaller of the letter's
    numbers of occurrences in the guess and in the target. *)
Theorem getPattern_colors_min_occurrences guess target :
  length guess = length target →
  upper_word guess = true → upper_word target = true →
  ∃ r, getPattern guess target = Some r ∧
       ∀ c, colored_count r guess c = (occ c guess `min` occ c target)%nat.
Proof.
  intros Hsame Hg Ht.
  destruct (getPattern_inv guess target Hsame Hg Ht) as (r & freq & E & Hinv).
  exists r. split; [done|]. intros c. by eapply colored_total.
Qed.

Lemma getPattern_colors_min_occurrences_witness :
  ∃ r, getPattern (str "SPEED") (str "ERASE") = Some r ∧
       ∀ c, colored_count r (str "SPEED") c
            = (occ c (str "SPEED") `min` occ c (str "ERASE"))%nat.
Proof.
  apply (getPattern_colors_min_occurrences (str "SPEED") (str "ERASE"));
    reflexivity.
Defined.

(** ** When the encoders return *)

Lemma for_loop_Some_inv {St} (Inv : nat → St → Prop) (Q : nat → Prop) body n :
  ∀ i s s',
  for_loop n i body s = Some s' → Inv i s →
  (∀ k s s1, (i ≤ k < i + n)%nat → Inv k s → body k s = Some s1 →
             Inv (S k) s1 ∧ Q k) →
  Inv (i + n)%nat s' ∧ ∀ k, (i ≤ k < i + n)%nat → Q k.
Proof.
  induction n as [|n IH]; intros i s s' E Hi Hstep.
  - injection E as <-. rewrite Nat.add_0_r. split; [done|]. intros k Hk. lia.
  - cbn [for_loop] in E. destruct (body i s) as [s1|] eqn:E1; [|done].
    simpl in E. destruct (Hstep i s s1) as [H1 Hq]; [lia|done..|].
    destruct (IH (S i) s1 s' E H1) as [Hfin Hall].
    { intros k s2 s3 Hk. apply Hstep. lia. }
    split; [by replace (i + S n)%nat with (S i + n)%nat by lia|].
    intros k Hk. destruct (decide (k = i)) as [->|]; [done|]. apply Hall. lia.
Qed.

Lemma str_at_Some_le s i c : str_at s i = Some c → (i ≤ length s)%nat.
Proof.
  unfold str_at. destruct (s !! i) eqn:E.
  - intros _. apply lookup_lt_Some in E. lia.
  - destruct (decide (i = length s)); [lia|done].
Qed.

Lemma vec_at_Some_upper (freq : list Z) c n :
  length freq = 26%nat → vec_at freq (letter_index c) = Some n →
  is_upper c = true.
Proof.
  intros Hl. unfold vec_at. destruct (decide (0 <= letter_index c)); [|done].
  intros H%lookup_lt_Some. unfold is_upper, letter_index in *.
  change (char_code chr_A) with 65 in *.
  apply andb_true_intro. split; [apply Z.leb_le|apply Z.leb_le]; lia.
Qed.

Lemma vec_add_Some_upper freq c d freq' :
  length freq = 26%nat → vec_add freq (letter_index c) d = Some freq' →
  is_upper c = true ∧ length freq' = 26%nat.
Proof.
  intros Hl. unfold vec_add.
  destruct (vec_at freq (letter_index c)) as [n|] eqn:E; [|done].
  simpl. intros [= <-]. split; [by eapply vec_at_Some_upper|].
  by rewrite length_insert.
Qed.

Lemma count_letters_Some target : ∀ freq freq',
  length freq = 26%nat → count_letters target freq = Some freq' →
  upper_word target = true ∧ length freq' = 26%nat.
Proof.
  induction target as [|c rest IH]; intros freq freq' Hl E.
  - injection E as <-. done.
  - cbn [count_letters] in E.
    destruct (vec_add freq (letter_index c) 1) as [freq1|] eqn:E1; [|done].
    simpl in E. destruct (vec_add_Some_upper _ _ _ _ Hl E1) as [Hc Hl1].
    destruct (IH _ _ Hl1 E) as [Hrest Hl']. split; [|done].
    unfold upper_word in *. simpl. by rewrite Hc, Hrest.
Qed.

Lemma upper_word_from_lookup s :
  (∀ i c, s !! i = Some c → is_upper c = true) → upper_word s = true.
Proof.
  unfold upper_word. induction s as [|x s IH]; intros H; [done|].
  simpl. rewrite (H 0%nat x) by done. apply IH.
  intros i c Hi. by apply (H (S i)).
Qed.

Lemma green_step_run guess target k st st1 :
  (k < length guess)%nat → green_run_inv guess k st →
  green_step guess target k st = Some st1 →
  green_run_inv guess (S k) st1 ∧ (k ≤ length target)%nat.
Proof.
  intros Hk (Hfreq & Hres & Hup) E. destruct st as [res freq]. cbn [fst snd] in *.
  unfold green_step in E. cbn [fst snd] in E.
  destruct (guess !! k) as [g|] eqn:Hg; [|done]. simpl in E.
  destruct (str_at target k) as [t|] eqn:Ht; [|done]. simpl in E.
  split; [|by eapply str_at_Some_le].
  destruct (decide (g = t)) as [->|Hne]; [|by injection E as <-].
  destruct (vec_add freq (letter_index t) (-1)) as [freq'|] eqn:Eadd; [|done].
  simpl in E. injection E as <-.
  destruct (vec_add_Some_upper _ _ _ _ Hfreq Eadd) as [Hc Hl'].
  split; [done|]. cbn [fst snd]. split; [by rewrite length_insert|].
  intros j g Hgj. destruct (decide (j = k)) as [->|Hjk].
  - right. congruence.
  - rewrite list_lookup_insert_ne by done. by apply Hup.
Qed.

Lemma yellow_step_run guess k st st1 :
  (k < length guess)%nat → yellow_run_inv guess k st →
  yellow_step guess k st = Some st1 →
  yellow_run_inv guess (S k) st1 ∧ (∀ g, guess !! k = Some g → is_upper g = true).
Proof.
  intros Hk (Hfreq & Hres & Hup) E. destruct st as [res freq]. cbn [fst snd] in *.
  unfold yellow_step in E. cbn [fst snd] in E.
  destruct (guess !! k) as [g|] eqn:Hg; [|done]. simpl in E.
  destruct (res !! k) as [m|] eqn:Hm; [|done]. simpl in E.
  assert (∀ res' freq', length freq' = 26%nat → length res' = length guess →
            (∀ j, (S k ≤ j)%nat → res' !! j = res !! j) →
            yellow_run_inv guess (S k) (res', freq')) as Hnext.
  { intros res' freq' Hl1 Hl2 Hsame. split; [done|]. split; [done|].
    cbn [fst snd]. intros j g' Hj Hgj. rewrite Hsame by done. apply Hup; [lia|done]. }
  destruct (decide (m = chr_B)) as [->|Hmb].
  - destruct (vec_at freq (letter_index g)) as [n|] eqn:En; [|done]. simpl in E.
    pose proof (vec_at_Some_upper _ _ _ Hfreq En) as Hupper.
    split; [|by intros g' [= <-]].
    destruct (decide (0 < n)); [|injection E as <-; by apply Hnext].
    destruct (vec_add freq (letter_index g) (-1)) as [freq'|] eqn:Eadd; [|done].
    simpl in E. injection E as <-.
    destruct (vec_add_Some_upper _ _ _ _ Hfreq Eadd) as [_ Hl'].
    apply Hnext; [done|by rewrite length_insert|].
    intros j Hj. apply list_lookup_insert_ne. lia.
  - injection E as <-. split; [by apply Hnext|].
    intros g' [= <-]. destruct (Hup k g) as [Hb|Hu]; [lia|done| |done].
    congruence.
Qed.

(** [getPattern] returns a pattern only for words over A..Z with a guess
    at most one character longer than the target; on every other pair of
    words it indexes a counter or the target out of range. *)
Theorem getPattern_returns_only_in_range guess target r :
  getPattern guess target = Some r →
  upper_word guess = true ∧ upper_word target = true ∧
  (length guess ≤ length target + 1)%nat ∧ length r = length guess.
Proof.
  unfold getPattern. cbv zeta. intros E.
  destruct (count_letters target (replicate 26 0)) as [freq0|] eqn:E0; [|done].
  cbn [mbind option_bind] in E.
  destruct (count_letters_Some _ _ _ (length_replicate _ _) E0) as [Ht Hl0].
  destruct (for_loop (length guess) 0 (green_step guess target)
              (replicate (length guess) chr_B, freq0)) as [st1|] eqn:E1; [|done].
  cbn [mbind option_bind] in E.
  destruct (for_loop (length guess) 0 (yellow_step guess) st1) as [st2|] eqn:E2;
    [|done].
  cbn [mbind option_bind] in E. injection E as <-.
  destruct (for_loop_Some_inv (green_run_inv guess)
              (λ k, (k ≤ length target)%nat) _ _ _ _ _ E1) as [H1 Hlen].
  { split; [done|]. split; [by cbn [fst]; rewrite length_replicate|].
    intros j g Hg. left. cbn [fst]. apply lookup_replicate_2.
    by eapply lookup_lt_Some. }
  { intros k s s1 [_ Hk]. by apply green_step_run. }
  destruct (for_loop_Some_inv (yellow_run_inv guess)
              (λ k, ∀ g, guess !! k = Some g → is_upper g = true) _ _ _ _ _ E2)
    as [H2 Hup].
  { destruct H1 as (? & ? & Hall). split; [done|]. split; [done|].
    intros j g _. apply Hall. }
  { intros k s s1 [_ Hk]. by apply yellow_step_run. }
  split; [|split; [done|split]].
  - apply upper_word_from_lookup. intros i c Hi. apply (Hup i); [|done].
    apply lookup_lt_Some in Hi. lia.
  - destruct (length guess) as [|n] eqn:Hn; [lia|].
    specialize (Hlen n). lia.
  - apply H2.
Qed.

Lemma getPattern_returns_only_in_range_witness :
  upper_word (str "AB") = true ∧ upper_word (str "A") = true ∧
  (length (str "AB") ≤ length (str "A") + 1)%nat ∧
  length (str "GB") = length (str "AB").
Proof.
  apply (getPattern_returns_only_in_range (str "AB") (str "A") (str "GB")).
  reflexivity.
Defined.

(** [get_pattern] returns only when every index below [word_length] lies
    within both strings (terminator included) and no position from 10 on
    is an exact match: such a match is stored outside [used]. *)
Theorem get_pattern_returns_only_in_range guess answer word_length v :
  get_pattern guess answer word_length = Some v →
  ∀ k, Z.of_nat k < word_length →
       (k ≤ length guess)%nat ∧ (k ≤ length answer)%nat ∧
       (str_at guess k = str_at answer k → (k < 10)%nat).
Proof.
  unfold get_pattern. cbv zeta. intros E.
  destruct (for_loop (Z.to_nat word_length) 0
              (exact_step guess answer word_length) (0, replicate 10 false))
    as [st1|] eqn:E1; [|done].
  destruct (for_loop_Some_inv (λ _ (ct : cstate), length ct.2 = 10%nat)
              (λ k, (k ≤ length guess)%nat ∧ (k ≤ length answer)%nat ∧
                    (str_at guess k = str_at answer k → (k < 10)%nat))
              _ _ _ _ _ E1) as [_ Hall]; [done| |].
  - clear. intros k [pat used] ct1 _ Hused Estep. cbn [fst snd] in *.
    unfold exact_step in Estep. cbn [fst snd] in Estep.
    destruct (str_at guess k) as [g|] eqn:Hg; [|done]. simpl in Estep.
    destruct (str_at answer k) as [a|] eqn:Ha; [|done]. simpl in Estep.
    apply str_at_Some_le in Hg, Ha.
    destruct (decide (g = a)) as [->|Hne].
    + unfold vec_set in Estep. rewrite vec_at_nat in Estep.
      destruct (used !! k) as [u|] eqn:Hu; [|done]. simpl in Estep.
      injection Estep as <-. apply lookup_lt_Some in Hu.
      cbn [snd]. rewrite length_insert. repeat split; [done|lia..].
    + injection Estep as <-. repeat split; [done|lia|lia|].
      intros [= ?]. done.
  - intros k Hk. apply Hall. lia.
Qed.

Lemma get_pattern_returns_only_in_range_witness :
  (3 ≤ length (str "SPEED"))%nat ∧ (3 ≤ length (str "ERASE"))%nat ∧
  (str_at (str "SPEED") 3 = str_at (str "ERASE") 3 → (3 < 10)%nat).
Proof.
  apply (get_pattern_returns_only_in_range (str "SPEED") (str "ERASE") 5 93);
    [reflexivity | lia].
Defined.

(** Eleven equal letters: the exact match at index 10 is out of range. *)
Example get_pattern_eleven_letters :
  get_pattern (str "AAAAAAAAAAA") (str "AAAAAAAAAAA") 11 = None.
Proof. reflexivity. Qed.

(** ** The integer code of a pattern *)

Lemma digit_of_range c : 0 <= digit_of c <= 2.
Proof. unfold digit_of. repeat case_decide; lia. Qed.

Lemma read_base3_range r : 0 <= read_base3 r < 3 ^ Z.of_nat (length r).
Proof.
  induction r as [|x r IH]; [by vm_compute|].
  rewrite read_base3_cons. cbn [length].
  rewrite Nat2Z.inj_succ, Z.pow_succ_r by lia.
  pose proof (digit_of_range x). nia.
Qed.

Lemma digit_of_inj a b :
  is_mark a → is_mark b → digit_of a = digit_of b → a = b.
Proof.
  unfold is_mark, digit_of.
  intros [-> | [-> | ->]] [-> | [-> | ->]]; by vm_compute.
Qed.

Lemma read_base3_inj r1 : ∀ r2,
  Forall is_mark r1 → Forall is_mark r2 → length r1 = length r2 →
  read_base3 r1 = read_base3 r2 → r1 = r2.
Proof.
  induction r1 as [|x r1 IH]; intros [|y r2] H1 H2 Hlen Heq; try done.
  apply Forall_cons in H1 as [Hx H1]. apply Forall_cons in H2 as [Hy H2].
  injection Hlen as Hlen. rewrite !read_base3_cons, Hlen in Heq.
  pose proof (read_base3_range r1) as R1. pose proof (read_base3_range r2) as R2.
  rewrite Hlen in R1.
  pose proof (digit_of_range x). pose proof (digit_of_range y).
  assert (digit_of x = digit_of y) as Hd by nia.
  rewrite Hd in Heq. f_equal; [by apply digit_of_inj|].
  apply IH; [done..|lia].
Qed.

Lemma read_base3_all_G n : read_base3 (replicate n chr_G) = 3 ^ Z.of_nat n - 1.
Proof.
  induction n as [|n IH]; [done|].
  cbn [replicate]. rewrite read_base3_cons, IH, length_replicate.
  rewrite Nat2Z.inj_succ, Z.pow_succ_r by lia.
  change (digit_of chr_G) with 2. lia.
Qed.

(** Both encoders on one pair of words, with what is known of the marks. *)
Lemma encoders_with_marks guess answer :
  length guess = length answer → (length guess ≤ 10)%nat →
  upper_word guess = true → upper_word answer = true →
  ∃ r, getPattern guess answer = Some r ∧
       get_pattern guess answer (Z.of_nat (length guess)) = Some (read_base3 r) ∧
       length r = length guess ∧ Forall is_mark r ∧
       (r = replicate (length guess) chr_G ↔ guess = answer).
Proof.
  intros Hsame Hshort Hg Ha.
  destruct (getPattern_inv guess answer Hsame Hg Ha) as (r & freq & E & Hinv).
  destruct (encoders_in_step guess answer Hsame Hshort Hg Ha) as (r' & E' & F).
  rewrite E in E'. injection E' as <-.
  exists r. split; [done|]. split; [done|]. split; [apply Hinv|].
  split; [exact (yellow_inv_is_mark _ _ _ _ Hsame Hinv)|].
  exact (yellow_inv_all_exact _ _ _ _ Hsame Hinv).
Qed.

(** The code [get_pattern] returns is an index into [3^word_length]
    counters. *)
Theorem get_pattern_code_range guess answer :
  length guess = length answer → (length guess ≤ 10)%nat →
  upper_word guess = true → upper_word answer = true →
  ∃ v, get_pattern guess answer (Z.of_nat (length guess)) = Some v ∧
       0 <= v < 3 ^ Z.of_nat (length guess).
Proof.
  intros Hsame Hshort Hg Ha.
  destruct (encoders_with_marks guess answer Hsame Hshort Hg Ha)
    as (r & _ & F & Hlen & _).
  exists (read_base3 r). split; [done|]. rewrite <- Hlen. apply read_base3_range.
Qed.

Lemma get_pattern_code_range_witness :
  ∃ v, get_pattern (str "SPEED") (str "ERASE") (Z.of_nat (length (str "SPEED")))
       = Some v ∧ 0 <= v < 3 ^ Z.of_nat (length (str "SPEED")).
Proof.
  apply (get_pattern_code_range (str "SPEED") (str "ERASE"));
    [reflexivity | vm_compute; lia | reflexivity | reflexivity].
Defined.

(** The integer code loses nothing: two pairs of words of one length get
    the same code from [get_pattern] exactly when they get the same symbol
    string from [getPattern]. *)
Theorem get_pattern_same_code_iff guess1 answer1 guess2 answer2 :
  length guess1 = length answer1 → length guess2 = length answer2 →
  length guess1 = length guess2 → (length guess1 ≤ 10)%nat →
  upper_word guess1 = true → upper_word answer1 = true →
  upper_word guess2 = true → upper_word answer2 = true →
  get_pattern guess1 answer1 (Z.of_nat (length guess1))
  = get_pattern guess2 answer2 (Z.of_nat (length guess2))
  ↔ getPattern guess1 answer1 = getPattern guess2 answer2.
Proof.
  intros Hs1 Hs2 Hlen Hshort Hg1 Ha1 Hg2 Ha2.
  destruct (encoders_with_marks guess1 answer1 Hs1 Hshort Hg1 Ha1)
    as (r1 & E1 & F1 & Hl1 & Hm1 & _).
  destruct (encoders_with_marks guess2 answer2 Hs2 ltac:(lia) Hg2 Ha2)
    as (r2 & E2 & F2 & Hl2 & Hm2 & _).
  rewrite E1, E2, F1, F2. split.
  - intros [= Heq]. f_equal. apply read_base3_inj; [done..|lia|done].
  - by intros [= ->].
Qed.

Lemma get_pattern_same_code_iff_witness :
  get_pattern (str "SPEED") (str "ERASE") (Z.of_nat (length (str "SPEED")))
  = get_pattern (str "CRANE") (str "SLATE") (Z.of_nat (length (str "CRANE")))
  ↔ getPattern (str "SPEED") (str "ERASE") = getPattern (str "CRANE") (str "SLATE").
Proof.
  apply (get_pattern_same_code_iff (str "SPEED") (str "ERASE")
           (str "CRANE") (str "SLATE"));
    first [reflexivity | vm_compute; lia].
Defined.

(** [get_pattern] returns the largest code, [3^word_length - 1], exactly
    when guess and answer are the same word. *)
Theorem get_pattern_solved_iff guess answer :
  length guess = length answer → (length guess ≤ 10)%nat →
  upper_word guess = true → upper_word answer = true →
  get_pattern guess answer (Z.of_nat (length guess))
  = Some (3 ^ Z.of_nat (length guess) - 1)
  ↔ guess = answer.
Proof.
  intros Hsame Hshort Hg Ha.
  destruct (encoders_with_marks guess answer Hsame Hshort Hg Ha)
    as (r & _ & F & Hlen & Hmarks & Hall).
  rewrite F, <- Hall, <- read_base3_all_G. split.
  - intros [= Heq]. apply read_base3_inj; [done| |by rewrite length_replicate|done].
    apply Forall_replicate. by left.
  - by intros ->.
Qed.

Lemma get_pattern_solved_iff_witness :
  get_pattern (str "CRANE") (str "CRANE") (Z.of_nat (length (str "CRANE")))
  = Some (3 ^ Z.of_nat (length (str "CRANE")) - 1)
  ↔ str "CRANE" = str "CRANE".
Proof.
  apply (get_pattern_solved_iff (str "CRANE") (str "CRANE"));
    first [reflexivity | vm_compute; lia].
Defined.

(** ** [calculate_entropy] on an array of counts *)

Section count_array.
Local Open Scope R_scope.

Lemma entropy_step_spec patterns total i acc c :
  patterns !! i = Some c →
  entropy_step patterns total i acc = Some (acc + count_term total c).
Proof.
  intros Hc. unfold entropy_step, count_term. rewrite vec_at_nat, Hc.
  cbn [mbind option_bind]. destruct (decide (0 < c)%Z); f_equal; lra.
Qed.

Lemma entropy_loop_spec patterns total n : ∀ i acc,
  (i + n ≤ length patterns)%nat →
  for_loop n i (entropy_step patterns total) acc
  = Some (acc + rsum (count_term total) (take n (drop i patterns))).
Proof.
  induction n as [|n IH]; intros i acc Hn.
  - simpl. f_equal. lra.
  - destruct (lookup_lt_is_Some_2 patterns i) as [c Hc]; [lia|].
    cbn [for_loop]. rewrite (entropy_step_spec _ _ _ _ _ Hc).
    cbn [mbind option_bind]. rewrite IH by lia.
    rewrite (drop_S _ _ _ Hc). cbn [take rsum foldr]. f_equal. unfold rsum. lra.
Qed.

Lemma entropy_loop_out_of_range patterns total n : ∀ i acc,
  (i ≤ length patterns < i + n)%nat →
  for_loop n i (entropy_step patterns total) acc = None.
Proof.
  induction n as [|n IH]; intros i acc Hn; [lia|].
  cbn [for_loop]. destruct (patterns !! i) as [c|] eqn:Hc.
  - rewrite (entropy_step_spec _ _ _ _ _ Hc). cbn [mbind option_bind].
    apply lookup_lt_Some in Hc. apply IH. lia.
  - unfold entropy_step. by rewrite vec_at_nat, Hc.
Qed.

Lemma calculate_entropy_whole patterns total :
  calculate_entropy patterns (Z.of_nat (length patterns)) total
  = Some (rsum (count_term total) patterns).
Proof.
  unfold calculate_entropy. rewrite Nat2Z.id, entropy_loop_spec by lia.
  rewrite drop_0, take_ge by lia. f_equal. lra.
Qed.

Lemma count_term_positive total c :
  (0 < c)%Z → (0 < total)%Z →
  count_term total c = entropy_term (INR (Z.to_nat total)) (Z.to_nat c).
Proof.
  intros Hc Ht. unfold count_term, entropy_term. rewrite decide_True by done.
  by rewrite !INR_IZR_INZ, !Z2Nat.id by lia.
Qed.

Lemma count_term_skip total c : (c <= 0)%Z → count_term total c = 0.
Proof. intros Hc. unfold count_term. by rewrite decide_False by lia. Qed.

Lemma rsum_positive_entries total patterns :
  rsum (count_term total) (filter (λ c, 0 < c)%Z patterns)
  = rsum (count_term total) patterns.
Proof.
  unfold rsum. induction patterns as [|c patterns IH]; [done|].
  rewrite filter_cons. destruct (decide (0 < c)%Z); cbn [foldr]; rewrite IH.
  - done.
  - rewrite count_term_skip by lia. lra.
Qed.

Lemma sum_counts_elem patterns c :
  Forall (λ x, 0 <= x)%Z patterns → c ∈ patterns → (c <= sum_counts patterns)%Z.
Proof.
  induction 1 as [|x patterns Hx Hall IH]; [by intros ?%elem_of_nil|].
  assert (0 <= sum_counts patterns)%Z as Hnn.
  { clear IH. induction Hall as [|y l Hy _ IHl]; cbn; [lia|].
    unfold sum_counts in *. lia. }
  cbn. unfold sum_counts in *. intros [->|Hc]%elem_of_cons; [lia|].
  specialize (IH Hc). lia.
Qed.

Lemma rsum_count_upper total patterns :
  (0 < total)%Z → Forall (λ x, 0 <= x)%Z patterns →
  rsum (λ c, IZR c * (log2 (IZR total) / IZR total)) patterns
  = IZR (sum_counts patterns) * (log2 (IZR total) / IZR total).
Proof.
  intros Ht. induction 1 as [|x patterns Hx Hall IH]; cbn; [lra|].
  unfold rsum, sum_counts in *. rewrite IH, plus_IZR. lra.
Qed.

End count_array.

(** [calculate_entropy] reads the first [pattern_count] entries of the
    array: it returns exactly when the array holds that many, and then, for
    [total_words > 0], its value is the sum of the terms of the positive
    entries among them. *)
Theorem calculate_entropy_reads_pattern_count patterns pattern_count total_words :
  0 < total_words →
  (pattern_count <= Z.of_nat (length patterns) →
   calculate_entropy patterns pattern_count total_words
   = Some (rsum (count_term total_words)
                (filter (λ c, 0 < c) (take (Z.to_nat pattern_count) patterns)))) ∧
  (Z.of_nat (length patterns) < pattern_count →
   calculate_entropy patterns pattern_count total_words = None).
Proof.
  intros _. unfold calculate_entropy. split; intros Hn.
  - rewrite entropy_loop_spec by lia. rewrite drop_0, rsum_positive_entries.
    f_equal. lra.
  - apply entropy_loop_out_of_range. lia.
Qed.

(** For non-negative counts that add up to [total_words > 0], the value is
    between 0 and [log2 total_words]. *)
Theorem calculate_entropy_bounds patterns total_words :
  0 < total_words → Forall (λ c, 0 <= c) patterns →
  sum_counts patterns = total_words →
  ∃ h, calculate_entropy patterns (Z.of_nat (length patterns)) total_words = Some h ∧
       (0 <= h <= log2 (IZR total_words))%R.
Proof.
  intros Ht Hnn Hsum. eexists. split; [apply calculate_entropy_whole|].
  assert (∀ c, c ∈ patterns →
            (0 <= count_term total_words c
             <= IZR c * (log2 (IZR total_words) / IZR total_words))%R) as Hterm.
  { intros c Hc. pose proof (sum_counts_elem patterns c Hnn Hc) as Hle.
    rewrite Forall_forall in Hnn. specialize (Hnn c Hc).
    destruct (decide (0 < c)) as [Hpos|Hzero].
    - rewrite count_term_positive by done.
      rewrite (INR_IZR_INZ (Z.to_nat total_words)), Z2Nat.id by lia.
      pose proof (entropy_term_bounds (Z.to_nat total_words) (Z.to_nat c)) as Hb.
      rewrite !INR_IZR_INZ, !Z2Nat.id in Hb by lia. apply Hb. lia.
    - rewrite count_term_skip by lia. assert (c = 0) as -> by lia. lra. }
  split.
  - rewrite <- (rsum_zero patterns). apply rsum_le. intros c Hc. by apply Hterm.
  - etransitivity; [apply rsum_le; intros c Hc; by apply Hterm|].
    rewrite rsum_count_upper, Hsum by done. right. field.
    apply not_0_IZR. lia.
Qed.

Lemma calculate_entropy_bounds_witness :
  ∃ h, calculate_entropy [2; 0; 1] (Z.of_nat (length [2; 0; 1])) 3 = Some h ∧
       (0 <= h <= log2 (IZR 3))%R.
Proof.
  apply (calculate_entropy_bounds [2; 0; 1] 3);
    [lia | repeat constructor; lia | reflexivity].
Defined.



(** ** [calculate_entropy] against [calculateEntropy] *)











(** ** The order of the answers *)







(** ** The map of pattern counts *)

(** After the counting loop of [calculateEntropy] the map holds exactly
    the patterns that occur, each with its number of occurrences, and the
    counts add up to the number of answers. *)
Theorem tally_counts guess answers ps :
  patterns_of guess answers ps →
  ∃ counts, tally guess answers ∅ = Some counts ∧
            (∀ p, counts !! p = if decide (p ∈ ps) then Some (count_of p ps)
                                else None) ∧
            sum_list_with snd (map_to_list counts) = length answers.
Proof.
  intros Hps. exists (tally_patterns ∅ ps). split; [by apply tally_spec|]. split.
  - intros p. rewrite tally_patterns_lookup, lookup_empty.
    destruct (decide (p ∈ ps)) as [Hin|Hnot].
    + apply count_of_pos in Hin. by rewrite decide_False by lia.
    + rewrite decide_True; [done|].
      destruct (count_of p ps) eqn:E; [done|].
      exfalso. apply Hnot, count_of_pos. lia.
  - rewrite (tally_patterns_entries ps), (Forall2_length _ _ _ Hps).
    rewrite <- (sum_count_of_distinct ps).
    induction (remove_dups ps) as [|p l IH]; [done|].
    cbn [fmap list_fmap sum_list_with snd]. by rewrite IH.
Qed.

Lemma tally_counts_witness :
  ∃ counts, tally (str "AB") [str "AB"; str "BA"; str "AB"] ∅ = Some counts ∧
            (∀ p, counts !! p
                  = if decide (p ∈ [str "GG"; str "YY"; str "GG"])
                    then Some (count_of p [str "GG"; str "YY"; str "GG"])
                    else None) ∧
            sum_list_with snd (map_to_list counts)
            = length [str "AB"; str "BA"; str "AB"].
Proof.
  apply (tally_counts (str "AB") [str "AB"; str "BA"; str "AB"]
           [str "GG"; str "YY"; str "GG"]).
  repeat constructor.
Defined.

(** ** Letter case and two candidates *)

Lemma alpha_toupper c : is_alpha c = true → is_upper (toupper c) = true.
Proof. by destruct c as [[] [] [] [] [] [] [] []]. Qed.

Lemma alpha_word_upcase w : forallb is_alpha w = true → upper_word (upcase w) = true.
Proof.
  unfold upper_word, upcase. induction w as [|c w IH]; [done|].
  cbn [forallb fmap list_fmap]. intros [Hc Hw]%andb_prop.
  by rewrite (alpha_toupper c Hc), IH.
Qed.

Lemma alpha_words_elem n words w :
  alpha_words n words = true → w ∈ words →
  forallb is_alpha w = true ∧ length w = n.
Proof.
  unfold alpha_words. rewrite forallb_forall. intros H Hw.
  apply list_elem_of_In in Hw. specialize (H w Hw).
  apply andb_prop in H as [Ha Hl]. by apply Nat.eqb_eq in Hl.
Qed.

Lemma setWordLists_answers_fit n guessWord allWordsJS possibleAnswersJS :
  length guessWord = n → alpha_words n possibleAnswersJS = true →
  answers_fit (upcase guessWord)
              (possibleAnswers (setWordLists allWordsJS possibleAnswersJS)) = true.
Proof.
  intros Hlen Hpa. unfold answers_fit. apply forallb_forall.
  intros a Ha. apply list_elem_of_In in Ha. cbn [setWordLists possibleAnswers] in Ha.
  apply list_elem_of_fmap in Ha as (a0 & -> & Ha0).
  destruct (alpha_words_elem _ _ _ Hpa Ha0) as [Halpha Hl].
  rewrite (alpha_word_upcase a0 Halpha). cbn [andb].
  apply Nat.eqb_eq. unfold upcase. rewrite !length_fmap. lia.
Qed.

(** Once [setWordLists] has installed lists of letters-only words of one
    length, in either case, [calculateEntropy] returns for every such
    guess, and [calculateAllEntropies] has a result. *)
Theorem setWordLists_makes_entropy_defined n allWordsJS possibleAnswersJS :
  alpha_words n allWordsJS = true → alpha_words n possibleAnswersJS = true →
  (∀ guessWord, forallb is_alpha guessWord = true → length guessWord = n →
     is_Some (calculateEntropy (setWordLists allWordsJS possibleAnswersJS)
                               guessWord)) ∧
  ∃ rs, calculateAllEntropies (setWordLists allWordsJS possibleAnswersJS) rs.
Proof.
  intros Haw Hpa.
  assert (∀ guessWord, forallb is_alpha guessWord = true → length guessWord = n →
            is_Some (calculateEntropy (setWordLists allWordsJS possibleAnswersJS)
                                      guessWord)) as Hdef.
  { intros g Hg Hlen.
    destruct (calculateEntropy_returns
                (setWordLists allWordsJS possibleAnswersJS) g) as (h & _ & -> & _);
      [by apply alpha_word_upcase|by eapply setWordLists_answers_fit|done]. }
  split; [done|].
  set (calc := setWordLists allWordsJS possibleAnswersJS) in *.
  destruct (decide (possibleAnswers calc = [])) as [Hnone|Hsome].
  { exists []. by constructor. }
  destruct (entropy_pairs_returns calc (allWords calc)) as [pairs Hpairs].
  { intros w Hw. cbn [calc setWordLists allWords] in Hw.
    apply list_elem_of_fmap in Hw as (w0 & -> & Hw0).
    destruct (alpha_words_elem _ _ _ Haw Hw0) as [Halpha Hl].
    destruct (Hdef w0 Halpha Hl) as [h Hh]. exists h.
    unfold calculateEntropy in *. by rewrite upcase_idemp. }
  destruct (std_sort_exists pairs) as [sorted Hsorted].
  exists (to_result <$> sorted). by econstructor.
Qed.

Lemma setWordLists_makes_entropy_defined_witness :
  (∀ guessWord, forallb is_alpha guessWord = true → length guessWord = 5%nat →
     is_Some (calculateEntropy
                (setWordLists [str "crane"; str "Slate"] [str "TRACE"; str "crane"])
                guessWord)) ∧
  ∃ rs, calculateAllEntropies
          (setWordLists [str "crane"; str "Slate"] [str "TRACE"; str "crane"]) rs.
Proof.
  apply (setWordLists_makes_entropy_defined 5
           [str "crane"; str "Slate"] [str "TRACE"; str "crane"]); reflexivity.
Defined.

(** Neither [setWordLists] nor [calculateEntropy] looks at letter case:
    upper-casing the lists and the guess beforehand changes nothing. *)
Theorem calculateEntropy_case_insensitive allWordsJS possibleAnswersJS guessWord :
  calculateEntropy (setWordLists (upcase <$> allWordsJS) (upcase <$> possibleAnswersJS))
                   (upcase guessWord)
  = calculateEntropy (setWordLists allWordsJS possibleAnswersJS) guessWord.
Proof.
  assert (setWordLists (upcase <$> allWordsJS) (upcase <$> possibleAnswersJS)
          = setWordLists allWordsJS possibleAnswersJS) as ->.
  { unfold setWordLists. rewrite <- !list_fmap_compose.
    f_equal; apply list_fmap_ext; intros _ w _; apply upcase_idemp. }
  unfold calculateEntropy. by rewrite upcase_idemp.
Qed.

Lemma log2_2 : log2 2 = 1%R.
Proof. unfold log2. field. pose proof ln2_pos. lra. Qed.

(** With exactly two possible answers the entropy is one bit when the
    guess gives them different patterns, and 0 when it gives them the same
    pattern. *)
Theorem calculateEntropy_two_answers calc guessWord a1 a2 p1 p2 :
  possibleAnswers calc = [a1; a2] →
  getPattern (upcase guessWord) a1 = Some p1 →
  getPattern (upcase guessWord) a2 = Some p2 →
  calculateEntropy calc guessWord = Some (if decide (p1 = p2) then 0%R else 1%R).
Proof.
  intros Hanswers H1 H2.
  rewrite (calculateEntropy_shannon calc guessWord [p1; p2]);
    [|rewrite Hanswers; by repeat constructor|rewrite Hanswers; simpl; lia].
  f_equal. destruct (decide (p1 = p2)) as [->|Hne].
  - apply shannon_zero; [done|].
    intros p q Hp Hq.
    apply elem_of_cons in Hp as [->|Hp]; [|apply list_elem_of_singleton in Hp as ->];
    (apply elem_of_cons in Hq as [->|Hq]; [|apply list_elem_of_singleton in Hq as ->]);
    done.
  - rewrite <- log2_2. change 2%R with (INR (length [p1; p2])).
    apply shannon_max; [done|].
    apply NoDup_cons. split; [by intros ->%list_elem_of_singleton|].
    apply NoDup_singleton.
Qed.

Lemma calculateEntropy_two_answers_witness :
  calculateEntropy {| allWords := []; possibleAnswers := [str "AB"; str "BA"] |}
                   (str "ab")
  = Some (if decide (str "GG" = str "YY") then 0%R else 1%R).
Proof.
  apply (calculateEntropy_two_answers
           {| allWords := []; possibleAnswers := [str "AB"; str "BA"] |}
           (str "ab") (str "AB") (str "BA") (str "GG") (str "YY")); reflexivity.
Defined.

(** ** The ranking *)


Lemma ranking_example :
  calculateAllEntropies
    {| allWords := [str "B"; str "A"]; possibleAnswers := [str "A"] |}
    (to_result <$> [(0%R, str "B"); (0%R, str "A")]).
Proof.
  apply (ranking_sorted _ [(0%R, str "B"); (0%R, str "A")]); [done|done|].
  split; [done|]. intros i j a b Hij Ha Hb.
  assert (a.1 = 0%R ∧ b.1 = 0%R) as [Ha0 Hb0].
  { split.
    - destruct i as [|[|i]]; simpl in Ha; by simplify_eq.
    - destruct j as [|[|j]]; simpl in Hb; by simplify_eq. }
  unfold by_entropy_desc. lra.
Qed.



(** The first entry of the ranking is a best guess: no dictionary word has
    a larger entropy. *)
Theorem ranking_first_is_best calc rs top w h :
  calculateAllEntropies calc rs → head rs = Some top →
  w ∈ allWords calc → calculateEntropy calc w = Some h →
  (h <= res_entropy top)%R.
Proof.
  intros Hrs Htop Hw Hh.
  destruct Hrs as [_|pairs sorted _ Hpairs [Hperm Hsorted]]; [done|].
  destruct (entropy_pairs_spec _ _ _ Hpairs) as [Hwords Hent].
  rewrite <- Hwords in Hw. apply list_elem_of_fmap in Hw as (pr & -> & Hpr).
  rewrite (Hent pr Hpr) in Hh. injection Hh as <-.
  rewrite <- Hperm in Hpr. apply list_elem_of_lookup in Hpr as [j Hj].
  destruct sorted as [|pt sorted]; [done|].
  cbn in Htop. injection Htop as <-. cbn [to_result res_entropy].
  destruct j as [|j]; [cbn in Hj; injection Hj as <-; lra|].
  pose proof (Hsorted 0%nat (S j) pt pr ltac:(lia) eq_refl Hj) as Hc.
  unfold by_entropy_desc in Hc. lra.
Qed.

Lemma ranking_first_is_best_witness :
  (0 <= res_entropy (to_result (0%R, str "B")))%R.
Proof.
  apply (ranking_first_is_best _ _ (to_result (0%R, str "B")) (str "A") 0%R
           ranking_example); [reflexivity | | reflexivity].
  apply list_elem_of_further, list_elem_of_here.
Defined.

Lemma calculate_entropy_reads_pattern_count_witness :
  (2 <= Z.of_nat (length [2; 0; 1]) →
   calculate_entropy [2; 0; 1] 2 3
   = Some (rsum (count_term 3)
                (filter (λ c, 0 < c) (take (Z.to_nat 2) [2; 0; 1])))) ∧
  (Z.of_nat (length [2; 0; 1]) < 2 →
   calculate_entropy [2; 0; 1] 2 3 = None).
Proof. apply (calculate_entropy_reads_pattern_count [2; 0; 1] 2 3). lia. Defined.

(** Four entries asked of an array of three: the read is out of range. *)
Example calculate_entropy_past_the_array :
  calculate_entropy [2; 0; 1] 4 3 = None.
Proof.
  unfold calculate_entropy. apply entropy_loop_out_of_range. simpl. lia.
Qed.
